(** * photo-site: page behaviours of [script.js]

    A shallow embedding of the event handlers of the page script and of the
    replacement theme block ([part_000]), and the properties its
    specification states about them.

    The script is a sequence of independent closures; each gets a module
    here.  Handlers become functions from the state they close over (and the
    part of the document they touch) to the state after the handler ran. *)

From stdpp Require Import gmap strings list.
From Stdlib Require Import ZArith QArith Qabs Qround Lqa Ascii.

Local Open Scope Z_scope.
Set Warnings "-clear-no-such-hyp".

(** ** Hover / focus spotlight

    First and third closures of the script.  Cards are named by numbers.
    A class is tracked as the set of cards whose [classList] holds it, the
    [dim-mode] class of [document.body] as a flag.  Timers live in the
    browser: [pending] is the browser's table of scheduled callbacks, [timer]
    the closure's single variable of that name, shared by all cards. *)
Module Spotlight.

Record timeout := Timeout {
  tid : nat;       (* handle returned by setTimeout *)
  due : Z;         (* clock value at which the callback runs *)
  target : nat     (* the [card] the callback closes over *)
}.

Record page := Page {
  now : Z;
  timer : option nat;          (* [let timer = null] *)
  next_id : nat;               (* next handle setTimeout hands out *)
  pending : list timeout;
  active : gset nat;           (* cards with class "active" *)
  show_caption : gset nat;     (* cards with class "show-caption" *)
  dim_mode : bool              (* body has class "dim-mode" *)
}.

Definition initial : page :=
  Page 0 None 1 [] ∅ ∅ false.

(** [parseInt(...) || 3400]: [css] is what parseInt returned, [None] for NaN. *)
Definition HOVER_DELAY (css : option Z) : Z :=
  match css with
  | Some n => if n =? 0 then 3400 else n
  | None => 3400
  end.

Definition set_timer (v : option nat) (p : page) : page :=
  Page (now p) v (next_id p) (pending p) (active p) (show_caption p) (dim_mode p).

Definition set_dim (b : bool) (p : page) : page :=
  Page (now p) (timer p) (next_id p) (pending p) (active p) (show_caption p) b.

(** [c.classList.add("active", "show-caption")] *)
Definition add_highlight (c : nat) (p : page) : page :=
  Page (now p) (timer p) (next_id p) (pending p)
       ({[c]} ∪ active p) ({[c]} ∪ show_caption p) (dim_mode p).

(** [c.classList.remove("active", "show-caption")] *)
Definition remove_highlight (c : nat) (p : page) : page :=
  Page (now p) (timer p) (next_id p) (pending p)
       (active p ∖ {[c]}) (show_caption p ∖ {[c]}) (dim_mode p).

(** [setTimeout(callback for c, delay)]: a negative delay counts as zero. *)
Definition setTimeout (c : nat) (delay : Z) (p : page) : nat * page :=
  (next_id p,
   Page (now p) (timer p) (S (next_id p))
        (pending p ++ [Timeout (next_id p) (now p + Z.max 0 delay) c])
        (active p) (show_caption p) (dim_mode p)).

(** [clearTimeout(h)]: [null] and unknown handles are ignored. *)
Definition clearTimeout (h : option nat) (p : page) : page :=
  match h with
  | None => p
  | Some i =>
      Page (now p) (timer p) (next_id p)
           (filter (λ tm, tid tm ≠ i) (pending p))
           (active p) (show_caption p) (dim_mode p)
  end.

(** An event names the card whose listener runs (a bubbling event on a nested
    card is one event per listener).  [KeyDown] is the document's listener. *)
Inductive event :=
| MouseEnter (c : nat)
| MouseLeave (c : nat)
| Click (c : nat)
| TouchEnd (c : nat)
| TouchCancel (c : nat)
| FocusIn (c : nat)
| FocusOut (c : nat)
| KeyDown (key : string).

Section Handlers.

(** [cards]: the elements matched by [.card] when the script ran;
    [css]: the parsed [--hover-delay]. *)
Variable cards : list nat.
Variable css : option Z.

(** [cards.forEach((c) => c.classList.remove("active", "show-caption"))] *)
Definition clear_all (p : page) : page :=
  foldl (λ q c, remove_highlight c q) p cards.

(** The callback given to setTimeout by the mouseenter listener of [c]. *)
Definition reveal (c : nat) (p : page) : page :=
  add_highlight c (clear_all (set_dim true p)).

Definition mouseenter (c : nat) (p : page) : page :=
  let '(h, p') := setTimeout c (HOVER_DELAY css) p in
  set_timer (Some h) p'.

(** [reset], the listener for mouseleave, click, touchend, touchcancel. *)
Definition reset (c : nat) (p : page) : page :=
  set_dim false (remove_highlight c (set_timer None (clearTimeout (timer p) p))).

Definition keydown (key : string) (p : page) : page :=
  if decide (key = "Escape") then set_dim false (clear_all p) else p.

Definition focusin (c : nat) (p : page) : page :=
  set_dim true (add_highlight c p).

Definition focusout (c : nat) (p : page) : page :=
  set_dim false (remove_highlight c p).

(** Listeners exist only on the elements of [cards]. *)
Definition on_card (c : nat) (f : nat → page → page) (p : page) : page :=
  if decide (c ∈ cards) then f c p else p.

Definition handle (e : event) (p : page) : page :=
  match e with
  | MouseEnter c => on_card c mouseenter p
  | MouseLeave c | Click c | TouchEnd c | TouchCancel c => on_card c reset p
  | FocusIn c => on_card c focusin p
  | FocusOut c => on_card c focusout p
  | KeyDown k => keydown k p
  end.

(** The clock reaches [t]: every callback due by then runs, oldest first. *)
Definition advance (t : Z) (p : page) : page :=
  let ready := filter (λ tm, due tm ≤ t) (pending p) in
  let waiting := filter (λ tm, ¬ due tm ≤ t) (pending p) in
  let p' := Page (Z.max (now p) t) (timer p) (next_id p) waiting
                 (active p) (show_caption p) (dim_mode p) in
  foldl (λ q tm, reveal (target tm) q) p' ready.

Definition step (p : page) (te : Z * event) : page :=
  handle te.2 (advance te.1 p).

Definition run (p : page) (trace : list (Z * event)) : page :=
  foldl step p trace.

End Handlers.

(** The pointer enters a card and leaves it again. *)
Record visit := Visit {
  v_card : nat;
  v_enter : Z;
  v_leave : Z
}.

Definition visit_events (v : visit) : list (Z * event) :=
  [(v_enter v, MouseEnter (v_card v)); (v_leave v, MouseLeave (v_card v))].

(** Visits one after the other from time [from] on, each shorter than
    [delay]. *)
Fixpoint brief (delay from : Z) (vs : list visit) : Prop :=
  match vs with
  | [] => True
  | v :: rest =>
      from ≤ v_enter v ∧ v_enter v ≤ v_leave v ∧ v_leave v < v_enter v + delay ∧
      brief delay (v_leave v) rest
  end.

(** Both caption classes sit on the same cards, only cards are marked, and
    every scheduled callback is for a card, under a handle already handed
    out. *)
Definition well_formed (cards : list nat) (p : page) : Prop :=
  active p = show_caption p ∧
  active p ⊆ list_to_set cards ∧
  Forall (λ tm, target tm ∈ cards ∧ (tid tm < next_id p)%nat) (pending p).

Definition is_focusin (e : event) : bool :=
  match e with FocusIn _ => true | _ => false end.

End Spotlight.


(** ** Values shared by the closures *)
Module JS.

(** How a handler ended, with the state it left behind: it returned, or an
    exception left it.  What it changed before throwing stays changed. *)
Inductive completion (S : Type) :=
| Done (s : S)
| Thrown (s : S).
Arguments Done {S} s.
Arguments Thrown {S} s.

Definition after {S : Type} (c : completion S) : S :=
  match c with Done s | Thrown s => s end.

Definition returned {S : Type} (c : completion S) : bool :=
  match c with Done _ => true | Thrown _ => false end.

(** [a || b] on an attribute value: [null] and the empty string are falsy. *)
Definition or_else (a : option string) (b : string) : string :=
  match a with
  | Some EmptyString | None => b
  | Some s => s
  end.

Definition lower_ascii (c : ascii) : ascii :=
  let n := Ascii.N_of_ascii c in
  if ((65 <=? n) && (n <=? 90))%N then Ascii.ascii_of_N (n + 32) else c.

(** [s.toLowerCase()], on the ASCII strings the markup uses. *)
Fixpoint toLowerCase (s : string) : string :=
  match s with
  | EmptyString => EmptyString
  | String c s' => String (lower_ascii c) (toLowerCase s')
  end.

(** [s.split(sep)] for a one-character separator. *)
Fixpoint split (sep : ascii) (s : string) : list string :=
  match s with
  | EmptyString => [EmptyString]
  | String c s' =>
      if Ascii.eqb c sep then EmptyString :: split sep s'
      else match split sep s' with
           | w :: ws => String c w :: ws
           | [] => [String c EmptyString]
           end
  end.

(** [Math.round]: the nearest integer, a tie going up. *)
Definition Math_round (x : Q) : Z := Qfloor (x + (1 # 2))%Q.

(** [String(b)] *)
Definition String_of_bool (b : bool) : string :=
  if b then "true" else "false".

End JS.

(** ** Column equalizer (second closure) *)
Module Equalizer.
Import JS.

(** [style.minHeight]: the empty string, or [h + "px"]. *)
Inductive min_height :=
| Unset
| Px (h : Z).

(** A descendant of the module with class [col]. *)
Record col := Col {
  is_left : bool;          (* also has class "left" *)
  is_right : bool;         (* also has class "right" *)
  minHeight : min_height
}.

(** An element with class [module]. *)
Record module := Mod {
  data_equalize : option string;     (* getAttribute("data-equalize") *)
  gridTemplateColumns : string;      (* computed style *)
  cols : list col                    (* querySelectorAll(".col"), document order *)
}.

Definition set_minHeight (v : min_height) (c : col) : col :=
  Col (is_left c) (is_right c) v.

Definition set_cols (cs : list col) (m : module) : module :=
  Mod (data_equalize m) (gridTemplateColumns m) cs.

(** [mod.querySelector(".col.left")] and [".col.right"]: the position of the
    first match, [None] for [null]. *)
Definition querySelector (cls : col → bool) (m : module) : option nat :=
  fst <$> list_find (λ c, cls c = true) (cols m).

Definition clearHeights (m : module) : module :=
  set_cols (set_minHeight Unset <$> cols m) m.

Section Layout.

(** The rendering engine: the height of the bounding box of the column at
    a position, for the columns as they are styled at that moment. *)
Variable rect_height : list col → nat → Q.

(** [columnHeight(col)]; [None] when [col] is [null] and the call throws. *)
Definition columnHeight (m : module) (c : option nat) : option Z :=
  match c with
  | Some i => Some (Math_round (rect_height (cols m) i))
  | None => None
  end.

Definition equalizeModule (m : module) : completion module :=
  let mode := toLowerCase (or_else (data_equalize m) "right") in
  let left := querySelector is_left m in
  let right := querySelector is_right m in
  let singleColumn :=
    bool_decide (length (split " " (gridTemplateColumns m)) = 1%nat) in
  if singleColumn then Done (clearHeights m)
  else
    let '(measure, stretch) :=
      if decide (mode = "left") then (left, right) else (right, left) in
    let m1 := clearHeights m in
    match columnHeight m1 measure with
    | None => Thrown m1
    | Some h =>
        if 0 <? h then
          match stretch with
          | Some i => Done (set_cols (alter (set_minHeight (Px h)) i (cols m1)) m1)
          | None => Thrown m1
          end
        else Done m1
    end.

(** [modules.forEach(equalizeModule)]: an exception ends the loop. *)
Fixpoint equalizeAll (ms : list module) : completion (list module) :=
  match ms with
  | [] => Done []
  | m :: rest =>
      match equalizeModule m with
      | Thrown m' => Thrown (m' :: rest)
      | Done m' =>
          match equalizeAll rest with
          | Done r => Done (m' :: r)
          | Thrown r => Thrown (m' :: r)
          end
      end
  end.

End Layout.

End Equalizer.

(** ** The equalizer's triggers (rest of the second closure)

    When [equalizeAll] gets called: once every image has settled, and,
    debounced, after resize, orientation change and the window's load. *)
Module EqualizerPage.
Import JS Equalizer.

Record image := Image {
  complete : bool;     (* img.complete when the closure ran *)
  on_load : bool;      (* its once-listener for "load" is registered *)
  on_error : bool      (* its once-listener for "error" is registered *)
}.

Record page := Page {
  modules : list module;
  runs : nat;                  (* calls of equalizeAll so far *)
  remaining : Z;
  imgs : list image;           (* document.images, in order *)
  window_listeners : bool;     (* resize, orientationchange, load got registered *)
  now : Z;
  resizeTimer : option nat;
  next_id : nat;
  pending : list (nat * Z)     (* scheduled equalizeAll calls: handle, due time *)
}.

Definition set_imgs (l : list image) (p : page) : page :=
  Page (modules p) (runs p) (remaining p) l (window_listeners p)
       (now p) (resizeTimer p) (next_id p) (pending p).

Definition set_remaining (r : Z) (p : page) : page :=
  Page (modules p) (runs p) r (imgs p) (window_listeners p)
       (now p) (resizeTimer p) (next_id p) (pending p).

Definition set_window_listeners (b : bool) (p : page) : page :=
  Page (modules p) (runs p) (remaining p) (imgs p) b
       (now p) (resizeTimer p) (next_id p) (pending p).

Inductive event :=
| ImgLoad (i : nat)
| ImgError (i : nat)
| Resize
| OrientationChange
| WindowLoad.

(** The image a load or error event belongs to. *)
Definition settled_image (e : event) : option nat :=
  match e with
  | ImgLoad i | ImgError i => Some i
  | _ => None
  end.

Section Layout.

Variable rect_height : list col → nat → Q.

(** A call of [equalizeAll] on the page's modules. *)
Definition call_equalizeAll (p : page) : completion page :=
  let upd ms := Page ms (S (runs p)) (remaining p) (imgs p) (window_listeners p)
                     (now p) (resizeTimer p) (next_id p) (pending p) in
  match equalizeAll rect_height (modules p) with
  | Done ms => Done (upd ms)
  | Thrown ms => Thrown (upd ms)
  end.

(** [if (--remaining === 0) equalizeAll();] *)
Definition count_down (p : page) : completion page :=
  let p1 := set_remaining (remaining p - 1) p in
  if remaining p1 =? 0 then call_equalizeAll p1 else Done p1.

(** [imgs.forEach(...)]: the images visited so far are collected in the
    page, the incomplete ones with both listeners registered. *)
Fixpoint wait_images (todo : list image) (p : page) : completion page :=
  match todo with
  | [] => Done p
  | im :: rest =>
      if complete im then
        match count_down (set_imgs (imgs p ++ [im]) p) with
        | Done p' => wait_images rest p'
        | Thrown p' => Thrown (set_imgs (imgs p' ++ rest) p')
        end
      else
        wait_images rest (set_imgs (imgs p ++ [Image false true true]) p)
  end.

(** What [wait_images] leaves of an image it visited. *)
Definition registered (im : image) : image :=
  if complete im then im else Image false true true.

(** The closure body; [cs] tells for each image whether it is complete.
    When [equalizeAll] throws in here, the window listeners never get
    registered. *)
Definition init (ms : list module) (cs : list bool) : completion page :=
  let todo := (λ c, Image c false false) <$> cs in
  let p0 := Page ms 0 (Z.of_nat (length todo)) [] false 0 None 1 [] in
  let body :=
    if remaining p0 =? 0 then call_equalizeAll (set_imgs todo p0)
    else wait_images todo p0 in
  match body with
  | Done p => Done (set_window_listeners true p)
  | Thrown p => Thrown p
  end.

(** A "load" event on image [i]: the listener, if still there, runs once. *)
Definition img_load (i : nat) (p : page) : completion page :=
  match imgs p !! i with
  | Some im =>
      if on_load im then
        count_down (set_imgs (<[i := Image (complete im) false (on_error im)]> (imgs p)) p)
      else Done p
  | None => Done p
  end.

Definition img_error (i : nat) (p : page) : completion page :=
  match imgs p !! i with
  | Some im =>
      if on_error im then
        count_down (set_imgs (<[i := Image (complete im) (on_load im) false]> (imgs p)) p)
      else Done p
  | None => Done p
  end.

Definition debouncedEqualize (p : page) : page :=
  let kept :=
    match resizeTimer p with
    | Some h => filter (λ tm, tm.1 ≠ h) (pending p)     (* clearTimeout *)
    | None => pending p
    end in
  Page (modules p) (runs p) (remaining p) (imgs p) (window_listeners p)
       (now p) (Some (next_id p)) (S (next_id p))
       (kept ++ [(next_id p, now p + 120)]).

Definition handle (e : event) (p : page) : completion page :=
  match e with
  | ImgLoad i => img_load i p
  | ImgError i => img_error i p
  | Resize | OrientationChange | WindowLoad =>
      Done (if window_listeners p then debouncedEqualize p else p)
  end.

(** The clock reaches [t]: every scheduled call due by then is made. *)
Definition advance (t : Z) (p : page) : page :=
  let ready := filter (λ tm, tm.2 ≤ t) (pending p) in
  let waiting := filter (λ tm, ¬ tm.2 ≤ t) (pending p) in
  let p' := Page (modules p) (runs p) (remaining p) (imgs p) (window_listeners p)
                 (Z.max (now p) t) (resizeTimer p) (next_id p) waiting in
  foldl (λ q _, after (call_equalizeAll q)) p' ready.

Definition step (p : page) (te : Z * event) : page :=
  after (handle te.2 (advance te.1 p)).

Definition run (p : page) (trace : list (Z * event)) : page :=
  foldl step p trace.

End Layout.

(** At most one call is scheduled, and [resizeTimer] holds its handle. *)
Definition debounced (p : page) : Prop :=
  (length (pending p) ≤ 1)%nat ∧
  Forall (λ tm, resizeTimer p = Some tm.1) (pending p).

(** A burst after an event at [from]: each further event comes less than
    120 ms after the one before it. *)
Fixpoint burst (from : Z) (ts : list Z) : Prop :=
  match ts with
  | [] => True
  | t :: rest => from ≤ t ∧ t < from + 120 ∧ burst t rest
  end.

End EqualizerPage.

(** ** Lazy image loader (fourth closure) *)
Module LazyLoader.

Record img := Img {
  src : option string;        (* the src attribute *)
  data_src : option string;   (* the data-src attribute *)
  loads : nat                 (* how often src was assigned: each starts a load *)
}.

(** [images]: the document's images; [observed]: the observer's targets. *)
Record loader := Loader {
  images : list img;
  observed : gset nat
}.

(** [img.dataset.src]; assigning [undefined] to [src] stores that word. *)
Definition dataset_src (i : img) : string :=
  default "undefined" (data_src i).

(** [img.src = img.dataset.src] *)
Definition assign_src (i : img) : img :=
  Img (Some (dataset_src i)) (data_src i) (S (loads i)).

(** [img.removeAttribute("data-src")] *)
Definition removeAttribute_data_src (i : img) : img :=
  Img (src i) None (loads i).

Definition has_data_src (imgs : list img) (i : nat) : bool :=
  match imgs !! i with
  | Some im => bool_decide (is_Some (data_src im))
  | None => false
  end.

(** [document.querySelectorAll("img[data-src]")], as positions. *)
Definition lazyImages (imgs : list img) : list nat :=
  filter (λ i, has_data_src imgs i = true) (seq 0 (length imgs)).

(** The closure body.  [has_observer]: ["IntersectionObserver" in window]. *)
Definition init (has_observer : bool) (imgs : list img) : loader :=
  if negb has_observer then
    Loader (foldl (λ l i, alter assign_src i l) imgs (lazyImages imgs)) ∅
  else
    foldl (λ s i, Loader (images s) ({[i]} ∪ observed s))
          (Loader imgs ∅) (lazyImages imgs).

Record entry := Entry {
  target : nat;
  isIntersecting : bool
}.

#[global] Instance entry_eq_dec : EqDecision entry.
Proof. solve_decision. Defined.

(** The observer callback. *)
Definition on_entry (s : loader) (e : entry) : loader :=
  if isIntersecting e then
    Loader (alter (λ im, removeAttribute_data_src (assign_src im)) (target e) (images s))
           (observed s ∖ {[target e]})
  else s.

Definition callback (entries : list entry) (s : loader) : loader :=
  foldl on_entry s entries.

(** The entries of a batch that report an intersection. *)
Definition hits (entries : list entry) : list entry :=
  filter (λ e, isIntersecting e = true) entries.

(** What the browser hands to the callback: it reports an intersection only
    for a target that is observed when the batch is delivered, and for each
    target at most once in a batch. *)
Definition delivers (s : loader) (entries : list entry) : Prop :=
  NoDup (target <$> hits entries) ∧
  Forall (λ e, target e ∈ observed s) (hits entries).

Fixpoint run (s : loader) (batches : list (list entry)) : loader :=
  match batches with
  | [] => s
  | b :: rest => run (callback b s) rest
  end.

Fixpoint well_delivered (s : loader) (batches : list (list entry)) : Prop :=
  match batches with
  | [] => True
  | b :: rest => delivers s b ∧ well_delivered (callback b s) rest
  end.

(** Image [i] was reported as intersecting somewhere in [batches]. *)
Definition reported (i : nat) (batches : list (list entry)) : Prop :=
  Exists (λ b, Entry i true ∈ b) batches.

End LazyLoader.

(** ** The persistent key-value store ([localStorage]) *)
Module Storage.

(** The store of the origin: unusable (every access throws, as with storage
    disabled), or a map; when [full] no write is accepted any more. *)
Inductive storage :=
| Unavailable
| Store (items : gmap string string) (full : bool).

(** Each access answers [None] when it throws. *)
Definition getItem (k : string) (st : storage) : option (option string) :=
  match st with
  | Unavailable => None
  | Store m _ => Some (m !! k)
  end.

Definition setItem (k v : string) (st : storage) : option storage :=
  match st with
  | Unavailable => None
  | Store m true => None
  | Store m false => Some (Store (<[k := v]> m) false)
  end.

Definition removeItem (k : string) (st : storage) : option storage :=
  match st with
  | Unavailable => None
  | Store m f => Some (Store (delete k m) f)
  end.

(** What a later visit would read under [k]. *)
Definition persisted (k : string) (st : storage) : option string :=
  match st with
  | Unavailable => None
  | Store m _ => m !! k
  end.

End Storage.

Definition theme_name (dark : bool) : string :=
  if dark then "dark" else "light".

(** ** Theme toggle of [script.js] (fifth closure), with the control present *)
Module ScriptTheme.
Import JS Storage.

Definition STORAGE_KEY : string := "theme".

Record page := Page {
  data_theme : option string;     (* root.dataset.theme *)
  aria_pressed : option string;   (* of the control *)
  localStorage : storage;
  track : option bool;            (* the .track element, if any: has class is-transitioning *)
  reduced_motion : bool;          (* prefersReducedMotion.matches *)
  pulse_pending : bool;           (* pulseTrack.timer is scheduled *)
  system_dark : bool              (* the browser's colour-scheme preference; never read here *)
}.

Definition applyTheme (mode : string) (persist : bool) (p : page) : page :=
  let normalized := if decide (mode = "dark") then "dark" else "light" in
  let st :=
    if persist then
      match setItem STORAGE_KEY normalized (localStorage p) with
      | Some st' => st'
      | None => localStorage p          (* catch (err) { } *)
      end
    else localStorage p in
  Page (Some normalized)
       (Some (String_of_bool (bool_decide (normalized = "dark"))))
       st (track p) (reduced_motion p) (pulse_pending p) (system_dark p).

Definition initial_theme (st : storage) : string :=
  match getItem STORAGE_KEY st with
  | Some (Some saved) =>
      if decide (saved = "dark" ∨ saved = "light") then saved else "light"
  | Some None => "light"
  | None => "light"                     (* catch (err) { initial = "light" } *)
  end.

(** The closure body up to the first [applyTheme]. *)
Definition init (p : page) : page :=
  applyTheme (initial_theme (localStorage p)) false p.

Definition pulseTrack (p : page) : page :=
  match track p with
  | Some _ =>
      if reduced_motion p then p
      else Page (data_theme p) (aria_pressed p) (localStorage p) (Some true)
                (reduced_motion p) true (system_dark p)
  | None => p
  end.

(** The click listener.  The only statement of it that can throw is the
    store write, and [applyTheme] catches that. *)
Definition click (p : page) : completion page :=
  let next := if decide (data_theme p = Some "dark") then "light" else "dark" in
  Done (pulseTrack (applyTheme next true p)).

(** The 320 ms callback of [pulseTrack]. *)
Definition pulse_timeout (p : page) : page :=
  Page (data_theme p) (aria_pressed p) (localStorage p) (const false <$> track p)
       (reduced_motion p) false (system_dark p).

Inductive event :=
| Click
| SystemChange (dark : bool)
| PulseTimeout.

(** No listener of this closure hears a change of the system preference. *)
Definition handle (e : event) (p : page) : completion page :=
  match e with
  | Click => click p
  | SystemChange d =>
      Done (Page (data_theme p) (aria_pressed p) (localStorage p) (track p)
                 (reduced_motion p) (pulse_pending p) d)
  | PulseTimeout => Done (if pulse_pending p then pulse_timeout p else p)
  end.

Definition run (p : page) (evs : list event) : page :=
  foldl (λ q e, after (handle e q)) p evs.

(** The page shows theme [v]: root attribute and pressed state agree on it. *)
Definition displays (v : string) (p : page) : Prop :=
  data_theme p = Some v ∧
  aria_pressed p = Some (String_of_bool (bool_decide (v = "dark"))).

End ScriptTheme.

(** ** Theme toggle of [part_000], with the control present *)
Module PartTheme.
Import JS Storage.

Definition STORAGE_KEY : string := "site:theme".

Record page := Page {
  data_theme : option string;     (* root's data-theme attribute *)
  body_is_dark : bool;            (* body has class is-dark *)
  aria_pressed : option string;
  btn_is_on : bool;               (* the control has class is-on *)
  localStorage : storage;
  system_dark : bool;             (* mql.matches *)
  mql_listens : bool;             (* mql.addEventListener exists *)
  lastTap : Z
}.

(** [None] when reading the store throws. *)
Definition getInitialTheme (p : page) : option string :=
  match getItem STORAGE_KEY (localStorage p) with
  | None => None
  | Some saved =>
      Some (match saved with
            | Some v =>
                if decide (v = "light" ∨ v = "dark") then v
                else theme_name (system_dark p)
            | None => theme_name (system_dark p)
            end)
  end.

Definition applyTheme (mode : string) (save : bool) (p : page) : completion page :=
  let isDark := bool_decide (mode = "dark") in
  let p1 := Page (Some mode) isDark (Some (String_of_bool isDark)) isDark
                 (localStorage p) (system_dark p) (mql_listens p) (lastTap p) in
  if save then
    match setItem STORAGE_KEY mode (localStorage p1) with
    | Some st =>
        Done (Page (data_theme p1) (body_is_dark p1) (aria_pressed p1) (btn_is_on p1)
                   st (system_dark p1) (mql_listens p1) (lastTap p1))
    | None => Thrown p1
    end
  else Done p1.

(** The closure body; when it throws, no listener gets registered. *)
Definition init (p : page) : completion page :=
  match getInitialTheme p with
  | None => Thrown p
  | Some mode => applyTheme mode false p
  end.

Definition click (p : page) : completion page :=
  let current := or_else (data_theme p) "light" in
  let next := if decide (current = "dark") then "light" else "dark" in
  applyTheme next true p.

(** The listener for the media query's change event. *)
Definition change (matches : bool) (p : page) : completion page :=
  match getItem STORAGE_KEY (localStorage p) with
  | None => Thrown p
  | Some None => applyTheme (theme_name matches) false p
  | Some (Some _) => Done p
  end.

Definition set_lastTap (t : Z) (p : page) : page :=
  Page (data_theme p) (body_is_dark p) (aria_pressed p) (btn_is_on p)
       (localStorage p) (system_dark p) (mql_listens p) t.

Definition set_localStorage (st : storage) (p : page) : page :=
  Page (data_theme p) (body_is_dark p) (aria_pressed p) (btn_is_on p)
       st (system_dark p) (mql_listens p) (lastTap p).

Definition set_system_dark (d : bool) (p : page) : page :=
  Page (data_theme p) (body_is_dark p) (aria_pressed p) (btn_is_on p)
       (localStorage p) d (mql_listens p) (lastTap p).

(** The touchend listener; [now] is what [Date.now()] answers. *)
Definition touchend (now : Z) (p : page) : completion page :=
  if decide (now - lastTap p < 350) then
    match removeItem STORAGE_KEY (localStorage p) with
    | None => Thrown p
    | Some st =>
        match applyTheme (theme_name (system_dark p)) false (set_localStorage st p) with
        | Done p' => Done (set_lastTap now p')
        | Thrown p' => Thrown p'
        end
    end
  else Done (set_lastTap now p).

Inductive event :=
| Click
| SystemChange (dark : bool)
| TouchEnd (now : Z).

Definition handle (e : event) (p : page) : completion page :=
  match e with
  | Click => click p
  | SystemChange d =>
      if mql_listens p then change d (set_system_dark d p)
      else Done (set_system_dark d p)
  | TouchEnd t => touchend t p
  end.

(** An exception in a listener is reported and the page lives on. *)
Definition run (p : page) (evs : list event) : page :=
  foldl (λ q e, after (handle e q)) p evs.


(** The page shows theme [v]: root attribute, body class, pressed state and
    control class agree on it. *)
Definition displays (v : string) (p : page) : Prop :=
  data_theme p = Some v ∧
  body_is_dark p = bool_decide (v = "dark") ∧
  aria_pressed p = Some (String_of_bool (bool_decide (v = "dark"))) ∧
  btn_is_on p = bool_decide (v = "dark").

(** The page is in step with a store that accepts writes, change events
    being heard: it shows the stored preference or, nothing being stored,
    the theme of the system preference. *)
Definition in_step (p : page) : Prop :=
  ∃ m, localStorage p = Store m false ∧ mql_listens p = true ∧
       ((∃ d, m !! STORAGE_KEY = Some (theme_name d) ∧ displays (theme_name d) p) ∨
        (m !! STORAGE_KEY = None ∧ displays (theme_name (system_dark p)) p)).

(** Touch ends at least 350 ms apart, the first that long after [from]. *)
Fixpoint spaced (from : Z) (ts : list Z) : Prop :=
  match ts with
  | [] => True
  | t :: rest => 350 ≤ t - from ∧ spaced t rest
  end.

End PartTheme.

(** ** Sample pages

    Concrete documents on which the properties below are instantiated. *)

Definition sample_layout (cs : list Equalizer.col) (i : nat) : Q :=
  match i with
  | O => (1201 # 4)%Q
  | _ => (100 # 1)%Q
  end.

Definition sample_module (tracks : string) : Equalizer.module :=
  Equalizer.Mod (Some "LEFT") tracks
    [Equalizer.Col true false (Equalizer.Px 5);
     Equalizer.Col false true (Equalizer.Px 999)].

Definition sample_images : list LazyLoader.img :=
  [LazyLoader.Img None (Some "a.jpg") 0;
   LazyLoader.Img None (Some "b.jpg") 0;
   LazyLoader.Img (Some "c.jpg") None 0].

Definition sample_batches : list (list LazyLoader.entry) :=
  [[LazyLoader.Entry 0 false; LazyLoader.Entry 1 true];
   [LazyLoader.Entry 0 true]].

Definition sample_script_page (st : Storage.storage) (theme : string) : ScriptTheme.page :=
  ScriptTheme.Page (Some theme) (Some (JS.String_of_bool (bool_decide (theme = "dark"))))
    st (Some false) false false true.

Definition sample_part_page (st : Storage.storage) (theme : string) : PartTheme.page :=
  PartTheme.Page (Some theme) (bool_decide (theme = "dark"))
    (Some (JS.String_of_bool (bool_decide (theme = "dark"))))
    (bool_decide (theme = "dark")) st true true 0.

Definition sample_hover_trace : list (Z * Spotlight.event) :=
  [(0, Spotlight.MouseEnter 1); (4000, Spotlight.MouseEnter 2);
   (8000, Spotlight.KeyDown "Escape")].

(** A module whose right column is missing. *)
Definition sample_broken_module : Equalizer.module :=
  Equalizer.Mod None "1fr 1fr" [Equalizer.Col true false (Equalizer.Px 3)].

Definition sample_resizes : list (Z * EqualizerPage.event) :=
  [(50, EqualizerPage.Resize); (100, EqualizerPage.OrientationChange)].

Definition sample_reduced_page : ScriptTheme.page :=
  ScriptTheme.Page (Some "light") (Some "false") (Storage.Store ∅ false)
    (Some false) true false false.

(** * Properties *)

(** ** Spotlight *)
Section SpotlightFacts.
Import Spotlight.

Variable cards : list nat.
Variable css : option Z.

Lemma clear_all_fields (p : page) :
  now (clear_all cards p) = now p ∧ timer (clear_all cards p) = timer p ∧
  next_id (clear_all cards p) = next_id p ∧ pending (clear_all cards p) = pending p ∧
  dim_mode (clear_all cards p) = dim_mode p.
Proof.
  unfold clear_all. revert p.
  induction cards as [|c cs IH]; intros p; simpl; [done|].
  destruct (IH (remove_highlight c p)) as (-> & -> & -> & -> & ->). done.
Qed.

Lemma clear_all_active (p : page) :
  active (clear_all cards p) = active p ∖ list_to_set cards.
Proof.
  unfold clear_all. revert p.
  induction cards as [|c cs IH]; intros p; simpl.
  - set_solver.
  - rewrite IH. simpl. set_solver.
Qed.

(** The hover callback clears every card before it marks its own: when
    only cards were marked, exactly one card is marked afterwards. *)
Lemma reveal_single (c : nat) (p : page) :
  active p ⊆ list_to_set cards →
  active (reveal cards c p) = {[c]} ∧ dim_mode (reveal cards c p) = true.
Proof.
  intros Hsub. unfold reveal. simpl.
  rewrite clear_all_active.
  destruct (clear_all_fields (set_dim true p)) as (_ & _ & _ & _ & ->).
  simpl. split; [set_solver | done].
Qed.

(** Entering a card and leaving it again removes the callback the entry
    scheduled, and leaves the card unmarked. *)
Lemma enter_then_leave_cancels (c : nat) (p : page) :
  Forall (λ tm, tid tm ≠ next_id p) (pending p) →
  let q := reset c (mouseenter css c p) in
  pending q = pending p ∧ timer q = None ∧ dim_mode q = false ∧ c ∉ active q.
Proof.
  intros Hfresh. simpl. repeat split; [|set_solver].
  rewrite filter_app, filter_cons, filter_nil.
  rewrite decide_False by (simpl; intros H; by apply H).
  rewrite app_nil_r.
  induction Hfresh as [|tm l Hx _ IH]; [done|].
  rewrite filter_cons, decide_True by done. by rewrite IH.
Qed.

(** One visit that ends before the delay: the scheduled callback is removed
    again, nothing is marked, the page is not dimmed. *)
Lemma brief_visit_step (v : visit) (p : page) :
  pending p = [] →
  now p ≤ v_enter v → v_enter v ≤ v_leave v →
  v_leave v < v_enter v + Z.max 0 (HOVER_DELAY css) →
  let q := run cards css p (visit_events v) in
  pending q = [] ∧ now q = v_leave v ∧
  active q ⊆ active p ∧ show_caption q ⊆ show_caption p ∧
  (dim_mode p = false → dim_mode q = false).
Proof.
  intros Hp Hn He Hl.
  unfold run, visit_events, step, advance. cbn [foldl fst snd handle].
  rewrite Hp. cbn [filter list_filter foldl]. unfold on_card.
  destruct (decide (v_card v ∈ cards)) as [Hc|Hc].
  - unfold mouseenter, setTimeout, set_timer.
    generalize dependent (Z.max 0 (HOVER_DELAY css)). intros D Hl.
    cbn -[Z.max].
    rewrite (Z.max_r (now p) (v_enter v)) by lia.
    rewrite (Z.max_r (v_enter v) (v_leave v)) by lia.
    rewrite (decide_False (P := v_enter v + D ≤ v_leave v)) by lia.
    rewrite (decide_True (P := ¬ v_enter v + D ≤ v_leave v)) by lia.
    cbn -[Z.max].
    rewrite decide_False by (intros H; by apply H).
    split_and!; [done | done | set_solver | set_solver | done].
  - cbn -[Z.max].
    rewrite (Z.max_r (now p) (v_enter v)) by lia.
    rewrite (Z.max_r (v_enter v) (v_leave v)) by lia.
    split_and!; done.
Qed.

(** Spec property 1 for visits that follow one another: however many
    brief visits, to whichever cards, no callback stays scheduled, so the
    spotlight is not applied during them nor at any later time [T]. *)
Lemma brief_visits_never_reveal (vs : list visit) (p : page) (T : Z) :
  pending p = [] → dim_mode p = false →
  brief (Z.max 0 (HOVER_DELAY css)) (now p) vs →
  let q := run cards css p (vs ≫= visit_events) in
  pending q = [] ∧ active q ⊆ active p ∧ dim_mode q = false ∧
  active (advance cards T q) = active q ∧ dim_mode (advance cards T q) = false.
Proof.
  revert p. induction vs as [|v vs IH]; intros p Hp Hd Hb.
  - cbn. unfold advance. rewrite Hp. cbn. done.
  - destruct Hb as (Hn & He & Hl & Hb).
    destruct (brief_visit_step v p Hp Hn He Hl) as (Hp' & Hn' & Ha' & _ & Hd').
    rewrite <- Hn' in Hb.
    specialize (IH _ Hp' (Hd' Hd) Hb).
    cbn [mbind list_bind]. unfold run in *. rewrite foldl_app.
    destruct IH as (? & ? & ? & ? & ?). split_and!; try done. set_solver.
Qed.

End SpotlightFacts.

(** C1.  The claim: enter / leave sequences that end before the reveal delay
    never lead to the spotlight, pending activations never stack.  On the
    code: the pointer enters card 1, enters card 2 (nested in it), leaves 2,
    leaves 1, all within 300 ms.  The entry into 2 overwrote the one handle
    the closure keeps, so the callback of card 1 is still scheduled after
    both leaves, and at 3400 ms it dims the page and marks card 1. *)
Theorem hover_timer_survives_leave :
  let cards := [1; 2]%nat in
  let p := Spotlight.run cards None Spotlight.initial
             [(0, Spotlight.MouseEnter 1); (100, Spotlight.MouseEnter 2);
              (200, Spotlight.MouseLeave 2); (300, Spotlight.MouseLeave 1)] in
  let q := Spotlight.advance cards 3400 p in
  Spotlight.pending p = [Spotlight.Timeout 1 3400 1] ∧
  Spotlight.dim_mode p = false ∧
  Spotlight.dim_mode q = true ∧
  Spotlight.active q = {[1%nat]} ∧
  Spotlight.show_caption q = {[1%nat]}.
Proof. vm_compute. repeat split; reflexivity. Qed.

(** C2.  The claim: at most one card is active at any instant.  On the code:
    the pointer rests on card 1 until the hover callback marks it, then
    keyboard focus moves to card 2; focusin marks card 2 and clears nothing,
    so both cards are active. *)
Theorem focus_after_hover_two_active :
  let cards := [1; 2]%nat in
  let p := Spotlight.run cards None Spotlight.initial
             [(0, Spotlight.MouseEnter 1); (4000, Spotlight.FocusIn 2)] in
  Spotlight.active p = {[1%nat; 2%nat]} ∧ size (Spotlight.active p) = 2%nat.
Proof. vm_compute. split; reflexivity. Qed.

(** ** Column equalizer *)
Section EqualizerFacts.
Import JS Equalizer.

Variable rect_height : list col → nat → Q.

(** [Math.round] answers an integer at most half a unit away. *)
Lemma Math_round_nearest (x : Q) :
  (Qabs (x - inject_Z (Math_round x)) <= 1 # 2)%Q.
Proof.
  unfold Math_round.
  pose proof (Qfloor_le (x + (1 # 2))) as Hlo.
  pose proof (Qlt_floor (x + (1 # 2))) as Hhi.
  rewrite inject_Z_plus in Hhi.
  change (inject_Z 1) with 1%Q in Hhi.
  generalize dependent (inject_Z (Qfloor (x + (1 # 2)))). intros r Hlo Hhi.
  apply Qabs_Qle_condition. split; lra.
Qed.

Lemma clearHeights_lookup (m : module) (j : nat) :
  cols (clearHeights m) !! j = set_minHeight Unset <$> cols m !! j.
Proof. unfold clearHeights. simpl. apply list_lookup_fmap. Qed.

(** C4.  After [equalizeModule]: in single-column mode every column's
    minimum height is cleared and nothing is applied; in two-column mode
    (with both columns present) the stretched column gets the measured
    column's height, rounded to the nearest whole pixel and applied only
    when positive, the measurement being taken with every minimum height
    cleared, and every other column is left cleared.  The measured column
    is the left one when the group is configured "left" (in any letter
    case), the right one otherwise. *)
Theorem equalizeModule_postcondition (m : module) :
  let single := length (split " " (gridTemplateColumns m)) = 1%nat in
  let measure_left := toLowerCase (or_else (data_equalize m) "right") = "left" in
  (single →
     ∃ m', equalizeModule rect_height m = Done m' ∧
       length (cols m') = length (cols m) ∧
       ∀ j c, cols m !! j = Some c →
         cols m' !! j = Some (set_minHeight Unset c))
  ∧
  (¬ single →
     ∀ l r, querySelector is_left m = Some l → querySelector is_right m = Some r →
       let measured := if decide measure_left then l else r in
       let stretched := if decide measure_left then r else l in
       let x := rect_height (set_minHeight Unset <$> cols m) measured in
       let h := Math_round x in
       (Qabs (x - inject_Z h) <= 1 # 2)%Q ∧
       ∃ m', equalizeModule rect_height m = Done m' ∧
         length (cols m') = length (cols m) ∧
         ∀ j c, cols m !! j = Some c →
           cols m' !! j =
             Some (set_minHeight
                     (if decide (j = stretched ∧ 0 < h) then Px h else Unset) c)).
Proof.
  intros single measure_left. split.
  - intros Hs. exists (clearHeights m). unfold equalizeModule.
    rewrite bool_decide_eq_true_2 by exact Hs.
    split; [done|]. split.
    + unfold clearHeights; simpl. by rewrite length_fmap.
    + intros j c Hj. by rewrite clearHeights_lookup, Hj.
  - intros Hs l r Hl Hr measured stretched x h.
    split; [apply Math_round_nearest|].
    unfold equalizeModule.
    rewrite bool_decide_eq_false_2 by exact Hs.
    rewrite Hl, Hr.
    fold measure_left.
    destruct (decide measure_left) as [Hm|Hm]; simpl;
      subst h x measured stretched;
      match goal with |- context [Math_round ?y] => set (h := Math_round y) end;
      (destruct (0 <? h) eqn:Hpos;
       [apply Z.ltb_lt in Hpos | apply Z.ltb_ge in Hpos]);
      eexists; (split; [reflexivity|]); simpl;
      rewrite ?length_alter, ?length_fmap; (split; [done|]);
      intros j c Hj.
    all: try (rewrite list_lookup_fmap, Hj; simpl;
              rewrite decide_False by lia; done).
    all: match goal with |- context [decide (?a = ?i ∧ _)] =>
           destruct (decide (a = i)) as [->|Hne] end.
    all: try (rewrite list_lookup_alter_eq, list_lookup_fmap, Hj; simpl;
              rewrite decide_True by (split; [done|lia]); done).
    all: rewrite list_lookup_alter_ne by congruence;
         rewrite list_lookup_fmap, Hj; simpl;
         rewrite decide_False by (intros [? _]; done); done.
Qed.

End EqualizerFacts.

(** ** Lazy image loader *)
Section LazyLoaderFacts.
Import LazyLoader.

Lemma lazyImages_elem (imgs : list img) (i : nat) :
  i ∈ lazyImages imgs ↔ ∃ im u, imgs !! i = Some im ∧ data_src im = Some u.
Proof.
  unfold lazyImages, has_data_src.
  rewrite list_elem_of_filter, elem_of_seq. split.
  - intros [H _]. destruct (imgs !! i) as [im|]; [|done].
    apply bool_decide_eq_true in H as [u Hu]. eauto.
  - intros (im & u & Hi & Hu). rewrite Hi. split.
    + apply bool_decide_eq_true. eauto.
    + apply lookup_lt_Some in Hi. lia.
Qed.

Lemma lazyImages_NoDup (imgs : list img) : NoDup (lazyImages imgs).
Proof. apply NoDup_filter, NoDup_seq. Qed.

Lemma observe_all (ixs : list nat) (s : loader) :
  let s' := foldl (λ s i, Loader (images s) ({[i]} ∪ observed s)) s ixs in
  images s' = images s ∧ observed s' = list_to_set ixs ∪ observed s.
Proof.
  revert s. induction ixs as [|i ixs IH]; intros s; simpl.
  - split; [done|set_solver].
  - destruct (IH (Loader (images s) ({[i]} ∪ observed s))) as [-> ->].
    simpl. split; [done|set_solver].
Qed.

Lemma init_observes (imgs : list img) :
  images (init true imgs) = imgs ∧
  ∀ i, i ∈ observed (init true imgs) ↔ i ∈ lazyImages imgs.
Proof.
  unfold init; simpl.
  destruct (observe_all (lazyImages imgs) (Loader imgs ∅)) as [-> ->].
  split; [done|]. intros i. set_solver.
Qed.

Lemma alter_each_lookup {A} (f : A → A) (ixs : list nat) (l : list A) (j : nat) :
  NoDup ixs →
  foldl (λ l i, alter f i l) l ixs !! j =
    if decide (j ∈ ixs) then f <$> l !! j else l !! j.
Proof.
  intros Hnd. revert l.
  induction Hnd as [|i ixs Hi Hnd IH]; intros l.
  - cbn [foldl]. by rewrite decide_False by set_solver.
  - cbn [foldl]. rewrite IH. destruct (decide (j = i)) as [->|Hne].
    + rewrite decide_False by done. rewrite decide_True by set_solver.
      by rewrite list_lookup_alter_eq.
    + rewrite list_lookup_alter_ne by done.
      destruct (decide (j ∈ ixs)).
      * by rewrite decide_True by set_solver.
      * by rewrite decide_False by set_solver.
Qed.

(** A batch that does not name image [i] leaves it as it is. *)
Lemma callback_other (b : list entry) (s : loader) (i : nat) :
  i ∉ target <$> b →
  images (callback b s) !! i = images s !! i ∧
  (i ∈ observed (callback b s) ↔ i ∈ observed s).
Proof.
  unfold callback. revert s.
  induction b as [|e b IH]; intros s Hni; simpl; [done|].
  rewrite fmap_cons, not_elem_of_cons in Hni. destruct Hni as [Hne Hni].
  destruct (IH (on_entry s e) Hni) as [-> ->].
  unfold on_entry. destruct (isIntersecting e); simpl; [|done].
  rewrite list_lookup_alter_ne by done. split; [done|set_solver].
Qed.

(** A batch that names [i] once: the image is loaded when the entry
    reports it as intersecting, and untouched otherwise. *)
Lemma callback_target (b : list entry) (s : loader) (i : nat) (im : img) :
  NoDup (target <$> b) →
  images s !! i = Some im →
  (Entry i true ∈ b →
     images (callback b s) !! i = Some (removeAttribute_data_src (assign_src im)) ∧
     i ∉ observed (callback b s)) ∧
  (Entry i true ∉ b →
     images (callback b s) !! i = Some im ∧
     (i ∈ observed (callback b s) ↔ i ∈ observed s)).
Proof.
  unfold callback. revert s.
  induction b as [|e b IH]; intros s Hnd Him; simpl.
  { split; [intros H; by apply elem_of_nil in H | done]. }
  rewrite fmap_cons in Hnd. apply NoDup_cons in Hnd as [Hhd Hnd].
  destruct (decide (target e = i)) as [Heq|Hne].
  - (* the head entry names [i]; the rest of the batch does not *)
    subst i. destruct (callback_other b (on_entry s e) (target e) Hhd) as [Hl Ho].
    unfold callback in Hl, Ho. rewrite Hl, Ho.
    assert (Hrest : Entry (target e) true ∉ b).
    { intros Hin. apply Hhd. apply list_elem_of_fmap. by exists (Entry (target e) true). }
    destruct e as [t [|]]; simpl in *.
    + split.
      * intros _. rewrite list_lookup_alter_eq, Him. split; [done|set_solver].
      * intros Hn. exfalso. apply Hn. left.
    + split.
      * intros Hin. apply elem_of_cons in Hin as [Heq|Hin]; [done|by apply Hrest in Hin].
      * done.
  - assert (Hstep : images (on_entry s e) !! i = Some im ∧
                    (i ∈ observed (on_entry s e) ↔ i ∈ observed s)).
    { unfold on_entry. destruct (isIntersecting e); simpl; [|done].
      rewrite list_lookup_alter_ne by done. split; [done|set_solver]. }
    destruct Hstep as [Him' Ho'].
    destruct (IH (on_entry s e) Hnd Him') as [Hyes Hno]. split.
    + intros Hin. apply elem_of_cons in Hin as [Heq|Hin]; [by subst e|].
      by apply Hyes.
    + intros Hn. apply not_elem_of_cons in Hn as [_ Hn].
      destruct (Hno Hn) as [-> ->]. done.
Qed.

(** Entries that report no intersection do nothing. *)
Lemma callback_hits (b : list entry) (s : loader) :
  callback b s = callback (hits b) s.
Proof.
  unfold callback, hits. revert s.
  induction b as [|e b IH]; intros s; [done|].
  rewrite filter_cons. cbn [foldl].
  destruct (decide (isIntersecting e = true)) as [He|He].
  - cbn [foldl]. apply IH.
  - rewrite IH. unfold on_entry at 2.
    by destruct (isIntersecting e).
Qed.

Lemma hit_elem (b : list entry) (i : nat) :
  Entry i true ∈ hits b ↔ Entry i true ∈ b.
Proof. unfold hits. rewrite list_elem_of_filter. simpl. tauto. Qed.

Lemma run_unobserved (batches : list (list entry)) (s : loader) (i : nat) :
  well_delivered s batches → i ∉ observed s →
  images (run s batches) !! i = images s !! i ∧ i ∉ observed (run s batches).
Proof.
  revert s. induction batches as [|b rest IH]; intros s Hwd Hno; simpl; [done|].
  destruct Hwd as [[_ Hobs] Hwd].
  assert (Hni : i ∉ target <$> hits b).
  { intros Hin. apply list_elem_of_fmap in Hin as (e & -> & He).
    rewrite Forall_forall in Hobs. by apply Hobs in He. }
  destruct (callback_other (hits b) s i Hni) as [Hl Ho].
  rewrite <- callback_hits in Hl, Ho.
  destruct (IH (callback b s) Hwd) as [-> ?]; [by rewrite Ho|].
  by rewrite Hl.
Qed.

Lemma run_observed (batches : list (list entry)) (s : loader) (i : nat) (im : img) :
  well_delivered s batches →
  images s !! i = Some im → i ∈ observed s →
  (reported i batches →
     images (run s batches) !! i = Some (removeAttribute_data_src (assign_src im)) ∧
     i ∉ observed (run s batches)) ∧
  (¬ reported i batches →
     images (run s batches) !! i = Some im ∧ i ∈ observed (run s batches)).
Proof.
  unfold reported. revert s.
  induction batches as [|b rest IH]; intros s Hwd Him Hobs; simpl.
  { split; [intros H; by apply Exists_nil in H | done]. }
  destruct Hwd as [[Hnd Hall] Hwd].
  destruct (callback_target (hits b) s i im Hnd Him) as [Hyes Hno].
  rewrite <- callback_hits, hit_elem in Hyes, Hno.
  destruct (decide (Entry i true ∈ b)) as [Hin|Hout].
  - destruct (Hyes Hin) as [Hl Hu].
    destruct (run_unobserved rest (callback b s) i Hwd Hu) as [Hl' Hu'].
    split.
    + intros _. by rewrite Hl', Hl.
    + intros Hn. exfalso. apply Hn. by apply Exists_cons_hd.
  - destruct (Hno Hout) as [Hl Ho].
    destruct (IH (callback b s) Hwd Hl) as [IHyes IHno]; [by apply Ho|].
    split.
    + intros Hr. apply Exists_cons in Hr as [Hr|Hr]; [done|by apply IHyes].
    + intros Hn. apply IHno. intros Hr. apply Hn. by apply Exists_cons_tl.
Qed.


(** The delivery contract is needed: were a target reported as intersecting
    twice within one batch, the second entry would find no data-src left and
    assign the text "undefined", a second load. *)
Lemma repeated_hit_assigns_undefined :
  images (callback [Entry 0 true; Entry 0 true]
            (init true [Img None (Some "a.jpg") 0])) !! 0%nat
  = Some (Img (Some "undefined") None 2).
Proof. reflexivity. Qed.

(** C9.  Without intersection observation, initialization assigns every
    deferred source as the real source at once (one assignment per image)
    and leaves the deferred-source attribute in place; images without the
    attribute are not touched and nothing is observed. *)
Theorem fallback_keeps_data_src (imgs : list img) (i : nat) (im : img) :
  imgs !! i = Some im →
  let s := init false imgs in
  observed s = ∅ ∧
  images s !! i =
    Some (match data_src im with
          | Some u => Img (Some u) (Some u) (S (loads im))
          | None => im
          end).
Proof.
  intros Hi s. subst s. unfold init. simpl. split; [done|].
  rewrite alter_each_lookup by apply lazyImages_NoDup.
  destruct (decide (i ∈ lazyImages imgs)) as [Hin|Hout].
  - apply lazyImages_elem in Hin as (im' & u & Hi' & Hu).
    rewrite Hi in Hi'. injection Hi' as <-.
    rewrite Hi, Hu. simpl. unfold assign_src, dataset_src. by rewrite Hu.
  - rewrite Hi. destruct (data_src im) as [u|] eqn:Hu; [|done].
    exfalso. apply Hout, lazyImages_elem. eauto.
Qed.

End LazyLoaderFacts.

(** ** Theme toggle *)
Section ThemeFacts.
Import JS Storage.

Lemma theme_name_cases (d : bool) :
  theme_name d = "light" ∨ theme_name d = "dark".
Proof. destruct d; auto. Qed.

(** *** [script.js] *)

Lemma script_applyTheme_displays (v : string) (persist : bool) (p : ScriptTheme.page) :
  v = "light" ∨ v = "dark" →
  ScriptTheme.displays v (ScriptTheme.applyTheme v persist p).
Proof. intros [-> | ->]; split; reflexivity. Qed.

Lemma script_init_valid (p : ScriptTheme.page) :
  ∃ d, ScriptTheme.displays (theme_name d) (ScriptTheme.init p).
Proof.
  unfold ScriptTheme.init, ScriptTheme.initial_theme.
  destruct (getItem _ _) as [[v|]|].
  - destruct (decide _) as [[-> | ->]|_];
      [by exists true | by exists false | by exists false].
  - by exists false.
  - by exists false.
Qed.

Lemma script_pulseTrack_theme (p : ScriptTheme.page) :
  ScriptTheme.data_theme (ScriptTheme.pulseTrack p) = ScriptTheme.data_theme p ∧
  ScriptTheme.aria_pressed (ScriptTheme.pulseTrack p) = ScriptTheme.aria_pressed p ∧
  ScriptTheme.localStorage (ScriptTheme.pulseTrack p) = ScriptTheme.localStorage p.
Proof.
  unfold ScriptTheme.pulseTrack.
  destruct (ScriptTheme.track p); [destruct (ScriptTheme.reduced_motion p)|]; done.
Qed.

(** A click shows the other theme, whatever the store does. *)
Lemma script_click_displays (p : ScriptTheme.page) :
  ScriptTheme.displays
    (if decide (ScriptTheme.data_theme p = Some "dark") then "light" else "dark")
    (after (ScriptTheme.click p)).
Proof.
  unfold ScriptTheme.click, ScriptTheme.displays. cbn [after].
  destruct (script_pulseTrack_theme
              (ScriptTheme.applyTheme
                 (if decide (ScriptTheme.data_theme p = Some "dark") then "light" else "dark")
                 true p)) as (-> & -> & _).
  destruct (decide _); split; reflexivity.
Qed.

Lemma script_click_store (p : ScriptTheme.page) :
  ScriptTheme.localStorage (after (ScriptTheme.click p)) =
    default (ScriptTheme.localStorage p)
      (setItem ScriptTheme.STORAGE_KEY
         (if decide (ScriptTheme.data_theme p = Some "dark") then "light" else "dark")
         (ScriptTheme.localStorage p)).
Proof.
  unfold ScriptTheme.click. cbn [after].
  destruct (script_pulseTrack_theme
              (ScriptTheme.applyTheme
                 (if decide (ScriptTheme.data_theme p = Some "dark") then "light" else "dark")
                 true p)) as (_ & _ & ->).
  unfold ScriptTheme.applyTheme. simpl.
  destruct (decide (ScriptTheme.data_theme p = Some "dark")); simpl;
    destruct (setItem _ _ _); done.
Qed.

(** *** [part_000] *)

Lemma part_applyTheme_displays (v : string) (save : bool) (p : PartTheme.page) :
  PartTheme.displays v (after (PartTheme.applyTheme v save p)).
Proof.
  unfold PartTheme.applyTheme. destruct save; simpl; [|done].
  destruct (setItem _ _ _); done.
Qed.

Lemma part_applyTheme_nosave (v : string) (p : PartTheme.page) :
  ∃ q, PartTheme.applyTheme v false p = Done q ∧
       PartTheme.displays v q ∧
       PartTheme.localStorage q = PartTheme.localStorage p ∧
       PartTheme.system_dark q = PartTheme.system_dark p ∧
       PartTheme.mql_listens q = PartTheme.mql_listens p ∧
       PartTheme.lastTap q = PartTheme.lastTap p.
Proof. eexists. split; [reflexivity|]. done. Qed.

Lemma part_init_valid (p q : PartTheme.page) :
  PartTheme.init p = Done q → ∃ d, PartTheme.displays (theme_name d) q.
Proof.
  unfold PartTheme.init, PartTheme.getInitialTheme.
  destruct (getItem _ _) as [[v|]|]; [| |done].
  - destruct (decide _) as [[-> | ->]|_]; intros [= <-].
    + by exists false.
    + by exists true.
    + exists (PartTheme.system_dark p). by destruct (PartTheme.system_dark p).
  - intros [= <-]. exists (PartTheme.system_dark p).
    by destruct (PartTheme.system_dark p).
Qed.

Lemma part_click_displays (p : PartTheme.page) :
  PartTheme.displays
    (if decide (or_else (PartTheme.data_theme p) "light" = "dark") then "light" else "dark")
    (after (PartTheme.click p)).
Proof. unfold PartTheme.click. apply part_applyTheme_displays. Qed.

(** C3, as the code has it.  A stored preference that can be read and is
    exactly "light" or "dark" is applied at initialization, in both
    versions of the toggle.  Otherwise [part_000], when the store can be
    read (nothing stored, or any other value), applies the system colour
    scheme of that moment, while [script.js] applies "light" in every
    other case (nothing stored, another value, the store throwing), the
    system preference playing no part. *)
Theorem initial_theme_resolution :
  (∀ (p : ScriptTheme.page) (v : string),
     getItem ScriptTheme.STORAGE_KEY (ScriptTheme.localStorage p) = Some (Some v) →
     v = "light" ∨ v = "dark" →
     ScriptTheme.displays v (ScriptTheme.init p)) ∧
  (∀ (p : ScriptTheme.page),
     (∀ v, getItem ScriptTheme.STORAGE_KEY (ScriptTheme.localStorage p) = Some (Some v) →
           v ≠ "light" ∧ v ≠ "dark") →
     ScriptTheme.displays "light" (ScriptTheme.init p)) ∧
  (∀ (p : PartTheme.page) (v : string),
     getItem PartTheme.STORAGE_KEY (PartTheme.localStorage p) = Some (Some v) →
     v = "light" ∨ v = "dark" →
     ∃ q, PartTheme.init p = Done q ∧ PartTheme.displays v q) ∧
  (∀ (p : PartTheme.page) (saved : option string),
     getItem PartTheme.STORAGE_KEY (PartTheme.localStorage p) = Some saved →
     (∀ v, saved = Some v → v ≠ "light" ∧ v ≠ "dark") →
     ∃ q, PartTheme.init p = Done q ∧
          PartTheme.displays (theme_name (PartTheme.system_dark p)) q).
Proof.
  split; [|split; [|split]].
  - intros p v Hget Hv. unfold ScriptTheme.init, ScriptTheme.initial_theme.
    rewrite Hget. rewrite decide_True by tauto.
    by apply script_applyTheme_displays.
  - intros p Hbad. unfold ScriptTheme.init, ScriptTheme.initial_theme.
    destruct (getItem _ _) as [[v|]|]; try done.
    destruct (Hbad v eq_refl) as [Hl Hd].
    rewrite decide_False by tauto. done.
  - intros p v Hget Hv. unfold PartTheme.init, PartTheme.getInitialTheme.
    rewrite Hget. rewrite decide_True by tauto.
    destruct (part_applyTheme_nosave v p) as (q & Hq & Hd & _). eauto.
  - intros p saved Hget Hbad. unfold PartTheme.init, PartTheme.getInitialTheme.
    rewrite Hget.
    assert (Hmode : match saved with
                    | Some v => if decide (v = "light" ∨ v = "dark") then v
                                else theme_name (PartTheme.system_dark p)
                    | None => theme_name (PartTheme.system_dark p)
                    end = theme_name (PartTheme.system_dark p)).
    { destruct saved as [v|]; [|done]. destruct (Hbad v eq_refl).
      rewrite decide_False by tauto. done. }
    rewrite Hmode.
    destruct (part_applyTheme_nosave (theme_name (PartTheme.system_dark p)) p)
      as (q & Hq & Hd & _). eauto.
Qed.

(** C5, as the code has it.  A click on the control shows the other theme
    (root attribute and pressed state change to the new value) whether or
    not the store accepts the write, in both versions; in [script.js]
    the failed write is swallowed, the handler returns, and the store is
    left as it was. *)
Theorem toggle_applies_despite_store_failure :
  (∀ (p : ScriptTheme.page),
     let next := if decide (ScriptTheme.data_theme p = Some "dark")
                 then "light" else "dark" in
     setItem ScriptTheme.STORAGE_KEY next (ScriptTheme.localStorage p) = None →
     returned (ScriptTheme.click p) = true ∧
     ScriptTheme.displays next (after (ScriptTheme.click p)) ∧
     ScriptTheme.data_theme (after (ScriptTheme.click p)) ≠ ScriptTheme.data_theme p ∧
     ScriptTheme.localStorage (after (ScriptTheme.click p)) = ScriptTheme.localStorage p) ∧
  (∀ (p : PartTheme.page),
     let next := if decide (or_else (PartTheme.data_theme p) "light" = "dark")
                 then "light" else "dark" in
     setItem PartTheme.STORAGE_KEY next (PartTheme.localStorage p) = None →
     PartTheme.displays next (after (PartTheme.click p)) ∧
     PartTheme.data_theme (after (PartTheme.click p)) ≠ PartTheme.data_theme p).
Proof.
  split.
  - intros p next Hfail. split; [done|].
    split; [apply script_click_displays|]. split.
    + destruct (script_click_displays p) as [-> _].
      destruct (decide _) as [->|Hne]; [done|congruence].
    + rewrite script_click_store. fold next. by rewrite Hfail.
  - intros p next Hfail. split; [apply part_click_displays|].
    destruct (part_click_displays p) as [Heq _]. rewrite Heq. clear Heq.
    unfold or_else.
    destruct (PartTheme.data_theme p) as [[|c v]|];
      destruct (decide _) as [Hd|Hd]; simpl in Hd; congruence.
Qed.







(** C7.  From a page that shows a theme, two clicks on the control show
    the other theme and then the original one again, in both versions;
    and when the store accepts writes, what is stored after the second
    click is the original theme, the value of the second toggle. *)
Theorem toggle_twice_restores :
  (∀ (p : ScriptTheme.page) (d : bool),
     ScriptTheme.displays (theme_name d) p →
     let p1 := after (ScriptTheme.click p) in
     let p2 := after (ScriptTheme.click p1) in
     ScriptTheme.displays (theme_name (negb d)) p1 ∧
     ScriptTheme.displays (theme_name d) p2 ∧
     ∀ m, ScriptTheme.localStorage p = Store m false →
          persisted ScriptTheme.STORAGE_KEY (ScriptTheme.localStorage p2)
            = Some (theme_name d)) ∧
  (∀ (p : PartTheme.page) (d : bool),
     PartTheme.displays (theme_name d) p →
     let p1 := after (PartTheme.click p) in
     let p2 := after (PartTheme.click p1) in
     PartTheme.displays (theme_name (negb d)) p1 ∧
     PartTheme.displays (theme_name d) p2 ∧
     ∀ m, PartTheme.localStorage p = Store m false →
          persisted PartTheme.STORAGE_KEY (PartTheme.localStorage p2)
            = Some (theme_name d)).
Proof.
  split.
  - intros p d [Hd _] p1 p2.
    pose proof (script_click_displays p) as H1. rewrite Hd in H1.
    assert (H1' : ScriptTheme.displays (theme_name (negb d)) p1)
      by (destruct d; exact H1).
    pose proof (script_click_displays p1) as H2.
    destruct H1' as [Hd1 Ha1]. rewrite Hd1 in H2.
    assert (H2' : ScriptTheme.displays (theme_name d) p2)
      by (destruct d; exact H2).
    split; [by split|]. split; [exact H2'|].
    intros m Hst. subst p2. rewrite script_click_store.
    rewrite Hd1. subst p1. rewrite script_click_store, Hd, Hst.
    destruct d; simpl; by rewrite lookup_insert_eq.
  - intros p d [Hd _] p1 p2.
    pose proof (part_click_displays p) as H1. rewrite Hd in H1.
    assert (H1' : PartTheme.displays (theme_name (negb d)) p1)
      by (destruct d; exact H1).
    pose proof (part_click_displays p1) as H2.
    destruct H1' as (Hd1 & Hb1 & Ha1 & Ho1). rewrite Hd1 in H2.
    assert (H2' : PartTheme.displays (theme_name d) p2)
      by (destruct d; exact H2).
    split; [done|]. split; [exact H2'|].
    intros m Hst. subst p2 p1.
    unfold PartTheme.click at 1. unfold PartTheme.applyTheme at 1.
    cbn [PartTheme.localStorage PartTheme.data_theme].
    assert (Hs1 : ∃ m1, PartTheme.localStorage (after (PartTheme.click p)) = Store m1 false).
    { unfold PartTheme.click, PartTheme.applyTheme. simpl. rewrite Hst. simpl. eauto. }
    destruct Hs1 as [m1 Hs1]. rewrite Hd1, Hs1.
    destruct d; simpl; by rewrite lookup_insert_eq.
Qed.


End ThemeFacts.

(** C3.  The claim on the code: nothing is stored and the system prefers
    dark.  [script.js] shows "light"; and when the store throws on access,
    [part_000] leaves its initialization by the exception with no theme
    shown, while [script.js] again shows "light". *)
Lemma initial_theme_not_from_system :
  let p := ScriptTheme.Page None None (Storage.Store ∅ false) None false false true in
  let p' := ScriptTheme.Page None None Storage.Unavailable None false false true in
  let r := PartTheme.Page None false None false Storage.Unavailable true true 0 in
  ScriptTheme.data_theme (ScriptTheme.init p) = Some "light" ∧
  ScriptTheme.data_theme (ScriptTheme.init p') = Some "light" ∧
  ScriptTheme.data_theme (ScriptTheme.init p) ≠ Some (theme_name (ScriptTheme.system_dark p)) ∧
  PartTheme.init r = JS.Thrown r.
Proof. vm_compute. repeat split; congruence. Qed.

(** C5.  The claim on the code: the store is unusable and the page shows
    "light".  A click in [part_000] shows "dark" and the exception of the
    write then leaves the handler uncaught. *)
Lemma part_toggle_exception_escapes :
  let p := PartTheme.Page (Some "light") false (Some "false") false
             Storage.Unavailable false true 0 in
  JS.returned (PartTheme.click p) = false ∧
  PartTheme.data_theme (JS.after (PartTheme.click p)) = Some "dark".
Proof. vm_compute. split; reflexivity. Qed.


(** ** The theorems at concrete pages *)
Lemma equalizeModule_postcondition_witness :
  (∃ m', Equalizer.equalizeModule sample_layout (sample_module "600px") = JS.Done m' ∧
         Equalizer.minHeight <$> Equalizer.cols m' !! 1%nat = Some Equalizer.Unset) ∧
  (∃ m', Equalizer.equalizeModule sample_layout (sample_module "300px 300px") = JS.Done m' ∧
         Equalizer.minHeight <$> Equalizer.cols m' !! 1%nat = Some (Equalizer.Px 300)).
Proof.
  split.
  - destruct (equalizeModule_postcondition sample_layout (sample_module "600px"))
      as [Hsingle _].
    destruct (Hsingle eq_refl) as (m' & He & _ & Hc).
    exists m'. split; [exact He|].
    rewrite (Hc 1%nat _ eq_refl). reflexivity.
  - destruct (equalizeModule_postcondition sample_layout (sample_module "300px 300px"))
      as [_ Htwo].
    assert (Hne : ¬ length (JS.split " " "300px 300px") = 1%nat) by (vm_compute; lia).
    destruct (Htwo Hne 0%nat 1%nat eq_refl eq_refl) as (_ & m' & He & _ & Hc).
    exists m'. split; [exact He|].
    rewrite (Hc 1%nat _ eq_refl). vm_compute. reflexivity.
Defined.


Lemma fallback_keeps_data_src_witness :
  LazyLoader.images (LazyLoader.init false sample_images) !! 0%nat
  = Some (LazyLoader.Img (Some "a.jpg") (Some "a.jpg") 1).
Proof.
  exact (proj2 (fallback_keeps_data_src sample_images 0
                  (LazyLoader.Img None (Some "a.jpg") 0) eq_refl)).
Defined.

Lemma initial_theme_resolution_witness :
  ScriptTheme.displays "dark"
    (ScriptTheme.init (sample_script_page (Storage.Store {[ "theme" := "dark" ]} false) "light")) ∧
  ScriptTheme.displays "light"
    (ScriptTheme.init (sample_script_page (Storage.Store {[ "theme" := "blue" ]} false) "light")) ∧
  (∃ q, PartTheme.init (sample_part_page (Storage.Store {[ "site:theme" := "light" ]} false) "light")
          = JS.Done q ∧ PartTheme.displays "light" q) ∧
  (∃ q, PartTheme.init (sample_part_page (Storage.Store {[ "site:theme" := "blue" ]} false) "light")
          = JS.Done q ∧ PartTheme.displays "dark" q).
Proof.
  destruct initial_theme_resolution as (H1 & H2 & H3 & H4).
  split_and!.
  - apply (H1 _ "dark"); [reflexivity | by right].
  - apply H2. intros v Hv. vm_compute in Hv. injection Hv as <-. by split.
  - apply (H3 _ "light"); [reflexivity | by left].
  - apply (H4 (sample_part_page (Storage.Store {[ "site:theme" := "blue" ]} false) "light")
              (Some "blue")); [reflexivity|].
    intros v [= <-]. by split.
Defined.

Lemma toggle_applies_despite_store_failure_witness :
  ScriptTheme.displays "dark"
    (JS.after (ScriptTheme.click (sample_script_page Storage.Unavailable "light"))) ∧
  PartTheme.displays "dark"
    (JS.after (PartTheme.click (sample_part_page (Storage.Store ∅ true) "light"))).
Proof.
  destruct toggle_applies_despite_store_failure as [H1 H2]. split.
  - exact (proj1 (proj2 (H1 (sample_script_page Storage.Unavailable "light") eq_refl))).
  - exact (proj1 (H2 (sample_part_page (Storage.Store ∅ true) "light") eq_refl)).
Defined.


Lemma toggle_twice_restores_witness :
  Storage.persisted ScriptTheme.STORAGE_KEY
    (ScriptTheme.localStorage
       (JS.after (ScriptTheme.click (JS.after (ScriptTheme.click
          (sample_script_page (Storage.Store ∅ false) "dark")))))) = Some "dark" ∧
  PartTheme.displays "light"
    (JS.after (PartTheme.click (JS.after (PartTheme.click
       (sample_part_page (Storage.Store ∅ false) "light"))))).
Proof.
  destruct toggle_twice_restores as [H1 H2]. split.
  - refine (proj2 (proj2 (H1 (sample_script_page (Storage.Store ∅ false) "dark") true _))
              ∅ eq_refl).
    by split.
  - refine (proj1 (proj2 (H2 (sample_part_page (Storage.Store ∅ false) "light") false _))).
    by split.
Defined.


(** * Further properties *)

Lemma Forall_filter {A} (P Q : A → Prop) `{∀ x, Decision (Q x)} (l : list A) :
  Forall P l → Forall P (filter Q l).
Proof.
  rewrite !Forall_forall. intros Hl x Hx.
  apply list_elem_of_filter in Hx as [_ Hx]. by apply Hl.
Qed.

(** ** Spotlight: what every run of the listeners keeps *)
Section SpotlightInvariants.
Import Spotlight.

Variable cards : list nat.
Variable css : option Z.

Lemma clear_all_show_caption (p : page) :
  show_caption (clear_all cards p) = show_caption p ∖ list_to_set cards.
Proof.
  unfold clear_all. revert p.
  induction cards as [|c cs IH]; intros p; simpl.
  - set_solver.
  - rewrite IH. simpl. set_solver.
Qed.

Lemma reveal_fields (c : nat) (p : page) :
  active (reveal cards c p) = {[c]} ∪ (active p ∖ list_to_set cards) ∧
  show_caption (reveal cards c p) = {[c]} ∪ (show_caption p ∖ list_to_set cards) ∧
  dim_mode (reveal cards c p) = true ∧
  pending (reveal cards c p) = pending p ∧
  next_id (reveal cards c p) = next_id p ∧
  timer (reveal cards c p) = timer p ∧
  now (reveal cards c p) = now p.
Proof.
  unfold reveal. simpl.
  rewrite clear_all_active, clear_all_show_caption.
  destruct (clear_all_fields cards (set_dim true p)) as (-> & -> & -> & -> & ->).
  done.
Qed.

Lemma reveal_well_formed (c : nat) (p : page) :
  c ∈ cards → well_formed cards p → well_formed cards (reveal cards c p).
Proof.
  intros Hc (Heq & Hsub & Hpend).
  destruct (reveal_fields c p) as (Ha & Hs & _ & Hp & Hn & _).
  unfold well_formed. rewrite Ha, Hs, Hp, Hn, Heq.
  split_and!; [done | set_solver | done].
Qed.

Lemma fire_well_formed (ready : list timeout) (p : page) :
  Forall (λ tm, target tm ∈ cards) ready →
  well_formed cards p →
  well_formed cards (foldl (λ q tm, reveal cards (target tm) q) p ready).
Proof.
  intros Hr. revert p.
  induction Hr as [|tm ready Htm _ IH]; intros p Hp; simpl; [done|].
  apply IH. by apply reveal_well_formed.
Qed.

Lemma advance_well_formed (t : Z) (p : page) :
  well_formed cards p → well_formed cards (advance cards t p).
Proof.
  intros (Heq & Hsub & Hpend). unfold advance.
  apply fire_well_formed.
  - apply Forall_filter. eapply Forall_impl; [exact Hpend|]. by intros tm [? _].
  - unfold well_formed. simpl. split_and!; [done | done |].
    by apply Forall_filter.
Qed.

Lemma handle_well_formed (e : event) (p : page) :
  well_formed cards p → well_formed cards (handle cards css e p).
Proof.
  intros (Heq & Hsub & Hpend).
  assert (Hreset : ∀ c, well_formed cards (reset c p)).
  { intros c. unfold well_formed, reset.
    destruct (timer p); simpl; rewrite Heq;
      (split_and!; [done | set_solver |]); [by apply Forall_filter | done]. }
  destruct e as [c|c|c|c|c|c|c|k]; simpl; unfold on_card;
    try (destruct (decide (c ∈ cards)) as [Hc|Hc]; [|done]); try apply Hreset.
  - unfold well_formed, mouseenter. simpl. split_and!; [done | done |].
    apply Forall_app. split.
    + eapply Forall_impl; [exact Hpend|]. intros tm [? ?]. split; [done|lia].
    + apply Forall_singleton. simpl. split; [done|lia].
  - unfold well_formed, focusin. simpl. rewrite Heq.
    split_and!; [done | set_solver | done].
  - unfold well_formed, focusout. simpl. rewrite Heq.
    split_and!; [done | set_solver | done].
  - unfold keydown. destruct (decide _); [|done].
    unfold well_formed. simpl.
    rewrite clear_all_active, clear_all_show_caption.
    destruct (clear_all_fields cards p) as (_ & _ & -> & -> & _).
    rewrite Heq. split_and!; [done | set_solver | done].
Qed.

Lemma run_well_formed (trace : list (Z * event)) (p : page) :
  well_formed cards p → well_formed cards (run cards css p trace).
Proof.
  unfold run. revert p.
  induction trace as [|te trace IH]; intros p Hp; simpl; [done|].
  apply IH. unfold step. by apply handle_well_formed, advance_well_formed.
Qed.

Lemma initial_well_formed : well_formed cards initial.
Proof. unfold well_formed, initial. simpl. split_and!; [done | set_solver | done]. Qed.

(** X1.  Whatever happens on the page, "active" and "show-caption" sit on
    exactly the same elements, and only on cards. *)
Theorem caption_classes_travel_together (trace : list (Z * event)) :
  let p := run cards css initial trace in
  active p = show_caption p ∧ ∀ c, c ∈ active p → c ∈ cards.
Proof.
  destruct (run_well_formed trace initial initial_well_formed) as (Heq & Hsub & _).
  split; [done|]. intros c Hc. apply Hsub in Hc. set_solver.
Qed.

Lemma fire_at_most_one (ready : list timeout) (p : page) :
  Forall (λ tm, target tm ∈ cards) ready →
  well_formed cards p → (size (active p) ≤ 1)%nat →
  (size (active (foldl (λ q tm, reveal cards (target tm) q) p ready)) ≤ 1)%nat.
Proof.
  intros Hr. revert p.
  induction Hr as [|tm ready Htm _ IH]; intros p Hp Hsz; simpl; [done|].
  apply IH; [by apply reveal_well_formed|].
  destruct Hp as (_ & Hsub & _).
  destruct (reveal_single cards (target tm) p Hsub) as [-> _].
  by rewrite size_singleton.
Qed.

(** X2.  As long as no focusin listener runs, at most one card is active
    at any moment: the hover callback clears every card before marking its
    own, and every other listener only removes marks. *)
Theorem hover_alone_keeps_one_active (trace : list (Z * event)) :
  Forall (λ te, is_focusin te.2 = false) trace →
  (size (active (run cards css initial trace)) ≤ 1)%nat.
Proof.
  intros Htr.
  assert (Hgen : ∀ p, well_formed cards p → (size (active p) ≤ 1)%nat →
                      (size (active (run cards css p trace)) ≤ 1)%nat).
  { unfold run. induction Htr as [|te trace Hte _ IH]; intros p Hp Hsz; simpl; [done|].
    assert (Hp' := advance_well_formed te.1 p Hp).
    assert (Hsz' : (size (active (advance cards te.1 p)) ≤ 1)%nat).
    { destruct Hp as (Heq & Hsub & Hpend). unfold advance.
      apply fire_at_most_one; [| |done].
      - apply Forall_filter. eapply Forall_impl; [exact Hpend|]. by intros tm [? _].
      - unfold well_formed. simpl. split_and!; [done | done | by apply Forall_filter]. }
    apply IH; [by apply handle_well_formed|].
    unfold step. set (q := advance cards te.1 p) in *.
    destruct te as [t e]. simpl in *.
    assert (Hless : ∀ X : gset nat, (size (active q ∖ X) ≤ 1)%nat).
    { intros X. etrans; [apply subseteq_size|exact Hsz']. set_solver. }
    destruct e as [c|c|c|c|c|c|c|k]; simpl; unfold on_card;
      try (destruct (decide (c ∈ cards)); [|done]);
      try done; try (unfold reset, focusout; destruct (timer q); simpl; apply Hless).
    unfold keydown. destruct (decide _); [|done]. simpl.
    rewrite clear_all_active. apply Hless. }
  apply Hgen; [apply initial_well_formed|].
  change (active initial) with (∅ : gset nat). rewrite size_empty. lia.
Qed.

(** X3.  Escape, whenever it is pressed, takes both caption classes off
    every card and the dimming off the page.  It does not cancel a pending
    hover callback: the timer table and the [timer] variable stay as they
    were. *)
Theorem escape_clears_marks_keeps_timers (trace : list (Z * event)) (t : Z) :
  let p := advance cards t (run cards css initial trace) in
  let q := handle cards css (KeyDown "Escape") p in
  active q = ∅ ∧ show_caption q = ∅ ∧ dim_mode q = false ∧
  pending q = pending p ∧ timer q = timer p.
Proof.
  intros p q.
  assert (Hp : well_formed cards p).
  { apply advance_well_formed, run_well_formed, initial_well_formed. }
  destruct Hp as (Heq & Hsub & _).
  subst q. simpl. unfold keydown. simpl.
  rewrite clear_all_active, clear_all_show_caption.
  destruct (clear_all_fields cards p) as (_ & -> & _ & -> & _).
  rewrite <- Heq. split_and!; try done; set_solver.
Qed.

Lemma enters_stack (cs : list nat) (p : page) :
  Forall (λ tm, (tid tm < next_id p)%nat) (pending p) →
  let q := foldl (λ q c, mouseenter css c q) p cs in
  length (pending q) = (length (pending p) + length cs)%nat ∧
  Forall (λ tm, (tid tm < next_id q)%nat) (pending q) ∧
  (cs ≠ [] →
   ∃ old tm, pending q = old ++ [tm] ∧ timer q = Some (tid tm) ∧
             Forall (λ tm', tid tm' ≠ tid tm) old).
Proof.
  revert p. induction cs as [|c cs IH] using rev_ind; intros p Hp.
  - simpl. split_and!; [lia | done | done].
  - rewrite foldl_app. cbn [foldl].
    destruct (IH p Hp) as (Hlen & Hfresh & _).
    set (q := foldl (λ q c, mouseenter css c q) p cs) in *.
    unfold mouseenter. simpl. split_and!.
    + rewrite !length_app, Hlen. simpl. lia.
    + apply Forall_app. split.
      * eapply Forall_impl; [exact Hfresh|]. simpl. intros; lia.
      * apply Forall_singleton. simpl. lia.
    + intros _. eexists _, _. split; [reflexivity|]. split; [done|].
      eapply Forall_impl; [exact Hfresh|]. simpl. intros; lia.
Qed.

(** X4.  Entries stack: after the mouseenter listener ran for one card and
    then for any further ones, with no leave in between, that many more
    callbacks are scheduled; the next leave (or click, or touch end) cancels
    just one of them, the newest. *)
Theorem entries_stack_leave_cancels_newest
    (trace : list (Z * event)) (c0 : nat) (cs : list nat) (c : nat) :
  let p := run cards css initial trace in
  let q := foldl (λ q c, mouseenter css c q) p (c0 :: cs) in
  length (pending q) = (length (pending p) + S (length cs))%nat ∧
  length (pending (reset c q)) = (length (pending p) + length cs)%nat ∧
  pending (reset c q) = take (length (pending p) + length cs) (pending q).
Proof.
  intros p q.
  assert (Hp : Forall (λ tm, (tid tm < next_id p)%nat) (pending p)).
  { destruct (run_well_formed trace initial initial_well_formed) as (_ & _ & H).
    eapply Forall_impl; [exact H|]. by intros tm [_ ?]. }
  destruct (enters_stack (c0 :: cs) p Hp) as (Hlen & _ & Hlast).
  fold q in Hlen, Hlast. split; [exact Hlen|].
  destruct (Hlast ltac:(done)) as (old & tm & Hq & Ht & Hold).
  unfold reset. rewrite Ht. simpl. rewrite Hq, filter_app, filter_cons, filter_nil.
  rewrite decide_False by (intros H; by apply H). rewrite app_nil_r.
  assert (Hkeep : filter (λ tm', tid tm' ≠ tid tm) old = old).
  { clear -Hold. induction Hold as [|x l Hx _ IH]; [done|].
    by rewrite filter_cons, decide_True, IH. }
  rewrite Hkeep. rewrite Hq, length_app in Hlen. simpl in Hlen.
  split; [lia|].
  replace (length (pending p) + length cs)%nat with (length old) by lia.
  by rewrite take_app_length.
Qed.


End SpotlightInvariants.

(** ** Equalizer: errors, and what a run leaves behind *)
Section EqualizerMore.
Import JS Equalizer.

Variable rect_height : list col → nat → Q.

(** What [equalizeModule] can leave in the columns: all minimum heights
    cleared, or all cleared but one, which holds a positive height. *)
Lemma equalizeModule_shape (m : module) :
  let cleared := set_minHeight Unset <$> cols m in
  let m' := after (equalizeModule rect_height m) in
  cols m' = cleared ∨
  ∃ i h, 0 < h ∧ cols m' = alter (set_minHeight (Px h)) i cleared.
Proof.
  unfold equalizeModule.
  destruct (bool_decide _); [by left|].
  destruct (decide _);
    match goal with
    | |- context [columnHeight _ _ ?c] => destruct c as [i|]; simpl; [|by left]
    end;
    (destruct (0 <? _) eqn:Hpos; [apply Z.ltb_lt in Hpos|by left]);
    match goal with
    | |- context [match ?s with Some _ => _ | None => _ end] =>
        destruct s as [k|]; simpl; [right; eauto | by left]
    end.
Qed.

(** X6.  Heights never pile up: after [equalizeModule], however the module
    looked before and whether or not the call threw, at most one column
    carries a minimum height, and that height is positive. *)
Theorem equalizeModule_one_positive_height
    (m : module) (i j : nat) (ci cj : col) (hi hj : Z) :
  let m' := after (equalizeModule rect_height m) in
  cols m' !! i = Some ci → minHeight ci = Px hi →
  cols m' !! j = Some cj → minHeight cj = Px hj →
  i = j ∧ 0 < hi.
Proof.
  intros m' Hi Hhi Hj Hhj.
  assert (Hunset : ∀ k c, (set_minHeight Unset <$> cols m) !! k = Some c →
                          minHeight c = Unset).
  { intros k c Hk. rewrite list_lookup_fmap in Hk.
    destruct (cols m !! k); [|done]. by injection Hk as <-. }
  destruct (equalizeModule_shape m) as [Hc | (k & h & Hh & Hc)];
    fold m' in Hc; rewrite Hc in Hi, Hj.
  - apply Hunset in Hi. congruence.
  - assert (Hat : ∀ n c x, alter (set_minHeight (Px h)) k
                             (set_minHeight Unset <$> cols m) !! n = Some c →
                           minHeight c = Px x → n = k ∧ x = h).
    { intros n c x Hn Hx. destruct (decide (n = k)) as [->|Hne].
      - rewrite list_lookup_alter_eq in Hn.
        destruct (_ !! k); [|done]. injection Hn as <-. simpl in Hx.
        by injection Hx as <-.
      - rewrite list_lookup_alter_ne in Hn by done.
        apply Hunset in Hn. congruence. }
    destruct (Hat _ _ _ Hi Hhi) as [-> ->].
    destruct (Hat _ _ _ Hj Hhj) as [-> _]. done.
Qed.

(** X7.  A missing column in two-column mode: when the column to measure
    is not there the call throws, after clearing every minimum height;
    when only the column to stretch is missing, the call throws exactly
    when there would have been a positive height to apply. *)
Theorem equalizeModule_missing_column (m : module) :
  let left_mode := toLowerCase (or_else (data_equalize m) "right") = "left" in
  let measure := if decide left_mode
                 then querySelector is_left m else querySelector is_right m in
  let stretch := if decide left_mode
                 then querySelector is_right m else querySelector is_left m in
  length (split " " (gridTemplateColumns m)) ≠ 1%nat →
  (measure = None →
     equalizeModule rect_height m = Thrown (clearHeights m)) ∧
  (∀ i, measure = Some i → stretch = None →
     equalizeModule rect_height m =
       if 0 <? Math_round (rect_height (set_minHeight Unset <$> cols m) i)
       then Thrown (clearHeights m) else Done (clearHeights m)).
Proof.
  intros left_mode measure stretch Htwo.
  unfold equalizeModule. rewrite bool_decide_eq_false_2 by exact Htwo.
  fold left_mode. subst measure stretch.
  destruct (decide left_mode); split.
  - intros ->. done.
  - intros i -> ->. simpl. by destruct (0 <? _).
  - intros ->. done.
  - intros i -> ->. simpl. by destruct (0 <? _).
Qed.

Lemma equalizeAll_Done_iff (ms ms' : list module) :
  equalizeAll rect_height ms = Done ms' ↔
  Forall2 (λ m m', equalizeModule rect_height m = Done m') ms ms'.
Proof.
  revert ms'. induction ms as [|m ms IH]; intros ms'; simpl.
  - split.
    + intros [= <-]. constructor.
    + intros H. by apply Forall2_nil_inv_l in H as ->.
  - destruct (equalizeModule rect_height m) as [m1|m1] eqn:Hm.
    + destruct (equalizeAll rect_height ms) as [r|r] eqn:Hr.
      * split.
        -- intros [= <-]. constructor; [done|]. by apply IH.
        -- intros H. apply Forall2_cons_inv_l in H as (m2 & r2 & Hm2 & Hr2 & ->).
           apply IH in Hr2. congruence.
      * split; [done|].
        intros H. apply Forall2_cons_inv_l in H as (m2 & r2 & Hm2 & Hr2 & ->).
        apply IH in Hr2. congruence.
    + split; [done|].
      intros H. apply Forall2_cons_inv_l in H as (m2 & r2 & Hm2 & Hr2 & ->).
      congruence.
Qed.

(** X8.  [equalizeAll] returns normally exactly when every module's
    equalization does, and then each module holds the result of its own
    equalization, in the same order. *)
Theorem equalizeAll_returns_iff_each (ms ms' : list module) :
  equalizeAll rect_height ms = Done ms' ↔
  Forall2 (λ m m', equalizeModule rect_height m = Done m') ms ms'.
Proof. apply equalizeAll_Done_iff. Qed.

(** X9.  The first module whose equalization throws ends the loop: the
    modules before it are equalized, the ones after it are not touched. *)
Theorem equalizeAll_stops_at_first_throw
    (before before' : list module) (m m' : module) (rest : list module) :
  Forall2 (λ x x', equalizeModule rect_height x = Done x') before before' →
  equalizeModule rect_height m = Thrown m' →
  equalizeAll rect_height (before ++ m :: rest) = Thrown (before' ++ m' :: rest).
Proof.
  intros Hb Hm. induction Hb as [|x x' l l' Hx _ IH]; simpl.
  - by rewrite Hm.
  - by rewrite Hx, IH.
Qed.

End EqualizerMore.

(** ** Equalizer triggers: image settling and debounce *)
Section EqualizerPageFacts.
Import JS Equalizer EqualizerPage.

Variable rect_height : list col → nat → Q.

(** A call of [equalizeAll] is counted and touches only the modules. *)
Lemma call_equalizeAll_fields (p : page) :
  let q := after (call_equalizeAll rect_height p) in
  runs q = S (runs p) ∧ remaining q = remaining p ∧ imgs q = imgs p ∧
  window_listeners q = window_listeners p ∧ now q = now p ∧
  resizeTimer q = resizeTimer p ∧ next_id q = next_id p ∧ pending q = pending p.
Proof. unfold call_equalizeAll. by destruct (equalizeAll _ _). Qed.

Lemma count_down_fields (p : page) :
  let q := after (count_down rect_height p) in
  runs q = (if remaining p =? 1 then S (runs p) else runs p) ∧
  remaining q = remaining p - 1 ∧ imgs q = imgs p ∧
  window_listeners q = window_listeners p ∧ now q = now p ∧
  resizeTimer q = resizeTimer p ∧ next_id q = next_id p ∧ pending q = pending p.
Proof.
  unfold count_down. simpl.
  destruct (remaining p - 1 =? 0) eqn:Hz.
  - apply Z.eqb_eq in Hz. rewrite (proj2 (Z.eqb_eq (remaining p) 1)) by lia.
    destruct (call_equalizeAll_fields (set_remaining (remaining p - 1) p))
      as (-> & -> & -> & -> & -> & -> & -> & ->). done.
  - apply Z.eqb_neq in Hz. rewrite (proj2 (Z.eqb_neq (remaining p) 1)) by lia.
    done.
Qed.

Lemma count_down_Done (p : page) :
  remaining p ≠ 1 →
  count_down rect_height p = Done (set_remaining (remaining p - 1) p).
Proof.
  intros Hne. unfold count_down. simpl.
  by rewrite (proj2 (Z.eqb_neq (remaining p - 1) 0)) by lia.
Qed.

(** While more images are outstanding than complete ones are left to
    visit, the loop only counts down and registers listeners. *)
Lemma wait_images_counts (todo : list image) (p : page) :
  Z.of_nat (length (filter (λ im, complete im = true) todo)) < remaining p →
  wait_images rect_height todo p =
    Done (set_remaining
            (remaining p - Z.of_nat (length (filter (λ im, complete im = true) todo)))
            (set_imgs (imgs p ++ (registered <$> todo)) p)).
Proof.
  revert p. induction todo as [|im todo IH]; intros p Hlt.
  - simpl. rewrite app_nil_r, Z.sub_0_r. by destruct p.
  - rewrite filter_cons in Hlt. cbn [wait_images].
    destruct (complete im) eqn:Hc.
    + rewrite decide_True in Hlt by done. cbn [length] in Hlt.
      rewrite count_down_Done by (simpl; lia).
      rewrite IH by (simpl; lia). simpl.
      rewrite filter_cons, decide_True by done. cbn [length].
      replace (registered im) with im by (unfold registered; by rewrite Hc).
      unfold set_remaining, set_imgs. simpl. rewrite <- app_assoc. simpl.
      f_equal. f_equal. lia.
    + rewrite decide_False in Hlt by done.
      rewrite IH by (simpl; lia). simpl.
      rewrite filter_cons, decide_False by (by rewrite Hc).
      replace (registered im) with (Image false true true)
        by (unfold registered; by rewrite Hc).
      unfold set_remaining, set_imgs. simpl. by rewrite <- app_assoc.
Qed.

(** When every image still to visit is complete and they are all that is
    outstanding, the last of them triggers the one call. *)
Lemma wait_images_all_complete (todo : list image) (p : page) :
  Forall (λ im, complete im = true) todo → todo ≠ [] →
  remaining p = Z.of_nat (length todo) →
  let q := after (wait_images rect_height todo p) in
  runs q = S (runs p) ∧ remaining q = 0 ∧ pending q = pending p.
Proof.
  intros Hall. revert p.
  induction Hall as [|im todo Hc Hall IH]; intros p Hne Hrem; [done|].
  cbn [wait_images]. rewrite Hc.
  destruct todo as [|im' todo].
  - cbn [length] in Hrem.
    destruct (count_down_fields (set_imgs (imgs p ++ [im]) p))
      as (Hr & Hm & _ & _ & _ & _ & _ & Hp).
    simpl in Hr, Hm, Hp. rewrite (proj2 (Z.eqb_eq (remaining p) 1)) in Hr by lia.
    destruct (count_down rect_height (set_imgs (imgs p ++ [im]) p)) as [q|q];
      simpl in *; split_and!; try done; lia.
  - cbn [length] in Hrem. rewrite count_down_Done by (simpl; lia).
    destruct (IH (set_remaining (remaining p - 1) (set_imgs (imgs p ++ [im]) p)))
      as (Hr & Hm & Hp); [done | simpl; lia |].
    simpl in Hr, Hp. done.
Qed.

(** X10.  When every image is already complete as the closure runs (and
    also when the document has no image), [equalizeAll] is called exactly
    once, at once, and nothing is scheduled. *)
Theorem complete_images_equalize_at_once (ms : list module) (cs : list bool) :
  Forall (λ c, c = true) cs →
  let p := after (init rect_height ms cs) in
  runs p = 1%nat ∧ remaining p = 0 ∧ pending p = [].
Proof.
  intros Hall. unfold init. simpl.
  destruct cs as [|c cs].
  - simpl.
    destruct (call_equalizeAll_fields
                (set_imgs [] (Page ms 0 0 [] false 0 None 1 [])))
      as (Hr & Hm & _ & _ & _ & _ & _ & Hp).
    destruct (call_equalizeAll _ _); simpl in *; done.
  - rewrite (proj2 (Z.eqb_neq _ 0)) by (rewrite length_fmap; simpl; lia).
    set (todo := (λ c, Image c false false) <$> c :: cs).
    set (p0 := Page ms 0 (Z.of_nat (length todo)) [] false 0 None 1 []).
    destruct (wait_images_all_complete todo p0) as (Hr & Hm & Hp); [|done|done|].
    { subst todo. apply Forall_fmap. eapply Forall_impl; [exact Hall|]. done. }
    destruct (wait_images _ _ _); simpl in *; done.
Qed.

Lemma incomplete_count (cs : list bool) :
  Z.of_nat (length (filter (λ im, complete im = true)
                      ((λ c, Image c false false) <$> cs))) =
  Z.of_nat (length cs) - Z.of_nat (length (filter (λ c, c = false) cs)).
Proof.
  induction cs as [|[|] cs IH]; [done| |].
  - rewrite fmap_cons, filter_cons, decide_True by done.
    rewrite filter_cons, decide_False by done. cbn [length]. lia.
  - rewrite fmap_cons, filter_cons, decide_False by done.
    rewrite filter_cons, decide_True by done. cbn [length]. lia.
Qed.

(** With an image still loading, the closure body calls nothing: it leaves
    as many images outstanding as are incomplete, each with both of its
    listeners registered. *)
Lemma init_waiting (ms : list module) (cs : list bool) :
  (0 < length (filter (λ c, c = false) cs))%nat →
  ∃ p, init rect_height ms cs = Done p ∧
       runs p = 0%nat ∧ pending p = [] ∧
       remaining p = Z.of_nat (length (filter (λ c, c = false) cs)) ∧
       ∀ i, cs !! i = Some false → imgs p !! i = Some (Image false true true).
Proof.
  intros Hk. unfold init.
  set (todo := (λ c, Image c false false) <$> cs).
  set (p0 := Page ms 0 (Z.of_nat (length todo)) [] false 0 None 1 []).
  assert (Hlen : length todo = length cs) by (subst todo; apply length_fmap).
  assert (Hcs : (length (filter (λ c, c = false) cs) ≤ length cs)%nat)
    by apply length_filter.
  pose proof (incomplete_count cs) as Hcount. fold todo in Hcount.
  rewrite (proj2 (Z.eqb_neq (remaining p0) 0)) by (simpl; lia).
  rewrite wait_images_counts by (simpl; lia).
  eexists. split; [reflexivity|]. simpl. split_and!; [done | done | lia |].
  intros i Hi. subst todo. rewrite !list_lookup_fmap, Hi. done.
Qed.

Lemma advance_idle (t : Z) (p : page) :
  pending p = [] →
  let q := advance rect_height t p in
  pending q = [] ∧ runs q = runs p ∧ remaining q = remaining p ∧
  imgs q = imgs p ∧ window_listeners q = window_listeners p.
Proof. intros Hp. unfold advance. rewrite Hp. simpl. done. Qed.

(** One image settles, by load or by error, and its listener counts it. *)
Lemma settle_step (e : event) (i : nat) (p : page) :
  settled_image e = Some i →
  imgs p !! i = Some (Image false true true) →
  let q := after (handle rect_height e p) in
  pending q = pending p ∧ remaining q = remaining p - 1 ∧
  runs q = (if remaining p =? 1 then S (runs p) else runs p) ∧
  ∀ j, j ≠ i → imgs q !! j = imgs p !! j.
Proof.
  intros He Hi.
  destruct e as [k|k| | |]; try done; injection He as ->; simpl;
    [unfold img_load | unfold img_error]; rewrite Hi; simpl;
    match goal with |- context [count_down _ ?p'] =>
      destruct (count_down_fields p') as (Hr & Hm & Him & _ & _ & _ & _ & Hp)
    end;
    simpl in Hr, Hm, Him, Hp; rewrite Hr, Hm, Him, Hp;
    (split_and!; try done);
    intros j Hj; by rewrite list_lookup_insert_ne.
Qed.

Lemma settle_run (tr : list (Z * event)) (p : page) :
  pending p = [] →
  NoDup (omap (λ te, settled_image te.2) tr) →
  Forall (λ te, ∃ i, settled_image te.2 = Some i ∧
                     imgs p !! i = Some (Image false true true)) tr →
  let q := run rect_height p tr in
  pending q = [] ∧
  (Z.of_nat (length tr) < remaining p → runs q = runs p) ∧
  (tr ≠ [] → Z.of_nat (length tr) = remaining p → runs q = S (runs p)).
Proof.
  unfold run. revert p.
  induction tr as [|[t e] tr IH]; intros p Hp Hnd Hall.
  - simpl. done.
  - apply Forall_cons in Hall as [(i & He & Hi) Hall]. simpl in He.
    cbn [omap list_omap snd] in Hnd. rewrite He in Hnd.
    apply NoDup_cons in Hnd as [Hni Hnd].
    destruct (advance_idle t p Hp) as (Hp1 & Hr1 & Hm1 & Him1 & _).
    set (p1 := advance rect_height t p) in *.
    destruct (settle_step e i p1 He) as (Hp2 & Hm2 & Hr2 & Him2);
      [by rewrite Him1|].
    set (p2 := after (handle rect_height e p1)) in *.
    change (foldl (step rect_height) p ((t, e) :: tr))
      with (foldl (step rect_height) p2 tr).
    destruct (IH p2) as (Hq & Hless & Hlast); [congruence | done | |].
    { rewrite Forall_forall in Hall |- *. intros te Hte.
      destruct (Hall te Hte) as (j & Hj & Hjm). exists j. split; [done|].
      rewrite Him2, Him1; [done|]. intros ->. apply Hni.
      apply list_elem_of_omap. by exists te. }
    cbn [length]. split_and!; [done | |].
    + intros Hlt. rewrite Hless by lia. rewrite Hr2, Hr1.
      by rewrite (proj2 (Z.eqb_neq (remaining p1) 1)) by lia.
    + intros _ Hlen. destruct tr as [|te tr].
      * simpl. rewrite Hr2, Hr1.
        by rewrite (proj2 (Z.eqb_eq (remaining p1) 1)) by (simpl in Hlen; lia).
      * rewrite Hlast by (done || (cbn [length] in *; lia)).
        rewrite Hr2, Hr1.
        by rewrite (proj2 (Z.eqb_neq (remaining p1) 1)) by (cbn [length] in *; lia).
Qed.

(** X11.  With images still loading when the closure runs: as the
    incomplete images settle, each once, by load or by error, nothing is
    called while some are outstanding, and [equalizeAll] is called exactly
    once at the moment the last one settles.  A failed image counts like a
    loaded one. *)
Theorem last_settling_image_equalizes
    (ms : list module) (cs : list bool) (tr : list (Z * event)) :
  let k := length (filter (λ c, c = false) cs) in
  let p := run rect_height (after (init rect_height ms cs)) tr in
  NoDup (omap (λ te, settled_image te.2) tr) →
  Forall (λ te, ∃ i, settled_image te.2 = Some i ∧ cs !! i = Some false) tr →
  ((length tr < k)%nat → runs p = 0%nat) ∧
  (tr ≠ [] → length tr = k → runs p = 1%nat).
Proof.
  intros k p Hnd Hall.
  assert (Hgen : (0 < k)%nat → ((length tr < k)%nat → runs p = 0%nat) ∧
                                (tr ≠ [] → length tr = k → runs p = 1%nat)).
  { intros Hk. destruct (init_waiting ms cs Hk) as (p0 & Hinit & Hr & Hp & Hm & Him).
    subst p. rewrite Hinit. simpl.
    destruct (settle_run tr p0 Hp Hnd) as (_ & Hless & Hlast).
    { eapply Forall_impl; [exact Hall|]. intros te (i & ? & ?). eauto. }
    fold k in Hm. split.
    - intros Hlt. rewrite Hless by lia. done.
    - intros Hne Hlen. rewrite Hlast by (done || lia). by rewrite Hr. }
  split.
  - intros Hlt. apply Hgen; [lia|done].
  - intros Hne Hlen. apply Hgen; [|done|done].
    destruct tr; [done|]. simpl in Hlen. lia.
Qed.

(** X12.  The two once-listeners of an image are independent: an image
    that fires "load" and later "error" (its source having been replaced,
    say) is counted twice, so with two images outstanding [equalizeAll] is
    called although another image has not settled. *)
Theorem load_then_error_counts_twice (p : page) (i : nat) (c : bool) :
  imgs p !! i = Some (Image c true true) →
  let q := after (handle rect_height (ImgError i)
                    (after (handle rect_height (ImgLoad i) p))) in
  remaining q = remaining p - 2 ∧
  (remaining p = 2 → runs q = S (runs p)).
Proof.
  intros Hi. simpl. unfold img_load. rewrite Hi. simpl.
  set (p1 := set_imgs _ p).
  destruct (count_down_fields p1) as (Hr & Hm & Him & _ & _ & _ & _ & _).
  set (q1 := after (count_down rect_height p1)) in *.
  assert (Hi1 : imgs q1 !! i = Some (Image c false true)).
  { rewrite Him. subst p1. simpl. apply list_lookup_insert_eq.
    by apply lookup_lt_Some in Hi. }
  unfold img_error. rewrite Hi1. simpl.
  set (p2 := set_imgs _ q1).
  destruct (count_down_fields p2) as (Hr2 & Hm2 & _).
  simpl in Hr, Hm, Hr2, Hm2. rewrite Hm2, Hr2, Hm, Hr. split; [lia|].
  intros H2. rewrite H2. simpl. done.
Qed.

Lemma wait_images_timers (todo : list image) (p : page) :
  let q := after (wait_images rect_height todo p) in
  pending q = pending p ∧ resizeTimer q = resizeTimer p.
Proof.
  revert p. induction todo as [|im todo IH]; intros p; [done|].
  cbn [wait_images]. destruct (complete im).
  - destruct (count_down_fields (set_imgs (imgs p ++ [im]) p))
      as (_ & _ & _ & _ & _ & Ht & _ & Hp).
    destruct (count_down rect_height (set_imgs (imgs p ++ [im]) p)) as [q|q].
    + destruct (IH q) as [-> ->]. done.
    + done.
  - destruct (IH (set_imgs (imgs p ++ [Image false true true]) p)) as [-> ->]. done.
Qed.

Lemma init_debounced (ms : list module) (cs : list bool) :
  debounced (after (init rect_height ms cs)).
Proof.
  assert (H : pending (after (init rect_height ms cs)) = []).
  { unfold init. simpl. destruct (Z.of_nat _ =? 0).
    - destruct (call_equalizeAll_fields
                  (set_imgs ((λ c, Image c false false) <$> cs)
                     (Page ms 0 (Z.of_nat (length ((λ c, Image c false false) <$> cs)))
                        [] false 0 None 1 [])))
        as (_ & _ & _ & _ & _ & _ & _ & Hp).
      destruct (call_equalizeAll _ _); simpl in *; done.
    - match goal with |- context [wait_images _ ?t ?q] =>
        destruct (wait_images_timers t q) as [Hp _];
        destruct (wait_images rect_height t q) end; simpl in *; done. }
  unfold debounced. rewrite H. split; [simpl; lia | done].
Qed.

Lemma fire_fields (ready : list (nat * Z)) (p : page) :
  let q := foldl (λ q _, after (call_equalizeAll rect_height q)) p ready in
  runs q = (runs p + length ready)%nat ∧ pending q = pending p ∧
  resizeTimer q = resizeTimer p ∧ window_listeners q = window_listeners p ∧
  now q = now p ∧ next_id q = next_id p.
Proof.
  revert p. induction ready as [|tm ready IH]; intros p; simpl.
  - split_and!; (done || lia).
  - destruct (call_equalizeAll_fields p) as (Hr & _ & _ & Hw & Hn & Ht & Hi & Hp).
    destruct (IH (after (call_equalizeAll rect_height p)))
      as (-> & -> & -> & -> & -> & ->).
    rewrite Hr, Hw, Hn, Ht, Hi, Hp. split_and!; (done || lia).
Qed.

Lemma debouncedEqualize_debounced (p : page) :
  debounced p → debounced (debouncedEqualize p).
Proof.
  intros [Hlen Hall]. unfold debouncedEqualize, debounced. cbn [pending resizeTimer].
  destruct (pending p) as [|[h d] [|tm l]]; [| |simpl in Hlen; lia].
  - destruct (resizeTimer p); simpl; (split; [lia | by repeat constructor]).
  - apply Forall_cons in Hall as [Hh _]. simpl in Hh. rewrite Hh.
    rewrite filter_cons, filter_nil, decide_False by (simpl; intros H; by apply H).
    simpl. split; [lia | by repeat constructor].
Qed.

Lemma step_debounced (te : Z * event) (p : page) :
  debounced p → debounced (step rect_height p te).
Proof.
  intros [Hlen Hall]. unfold step.
  assert (Hadv : debounced (advance rect_height te.1 p)).
  { unfold advance, debounced.
    destruct (fire_fields (filter (λ tm, tm.2 ≤ te.1) (pending p))
                (Page (modules p) (runs p) (remaining p) (imgs p)
                   (window_listeners p) (Z.max (now p) te.1) (resizeTimer p)
                   (next_id p) (filter (λ tm, ¬ tm.2 ≤ te.1) (pending p))))
      as (_ & -> & -> & _). simpl. split.
    - etrans; [apply length_filter|done].
    - by apply Forall_filter. }
  set (q := advance rect_height te.1 p) in *. destruct Hadv as [Hlen' Hall'].
  destruct te as [t e]. cbn [snd].
  assert (Himg : ∀ q', pending q' = pending q → resizeTimer q' = resizeTimer q →
                       debounced q').
  { intros q' Hp Ht. unfold debounced. by rewrite Hp, Ht. }
  destruct e as [i|i| | |]; simpl.
  - unfold img_load. destruct (imgs q !! i) as [im|]; [|done].
    destruct (on_load im); [|done].
    match goal with |- context [count_down _ ?p'] =>
      destruct (count_down_fields p') as (_ & _ & _ & _ & _ & Ht & _ & Hp) end.
    by apply Himg.
  - unfold img_error. destruct (imgs q !! i) as [im|]; [|done].
    destruct (on_error im); [|done].
    match goal with |- context [count_down _ ?p'] =>
      destruct (count_down_fields p') as (_ & _ & _ & _ & _ & Ht & _ & Hp) end.
    by apply Himg.
  - destruct (window_listeners q); [by apply debouncedEqualize_debounced|done].
  - destruct (window_listeners q); [by apply debouncedEqualize_debounced|done].
  - destruct (window_listeners q); [by apply debouncedEqualize_debounced|done].
Qed.

(** X13.  Recomputations never queue up: whatever images settle and
    however the window is resized, at most one debounced call of
    [equalizeAll] is scheduled at any time. *)
Theorem at_most_one_recomputation_scheduled
    (ms : list module) (cs : list bool) (tr : list (Z * event)) :
  (length (pending (run rect_height (after (init rect_height ms cs)) tr)) ≤ 1)%nat.
Proof.
  assert (H : ∀ p, debounced p → debounced (run rect_height p tr)).
  { unfold run. induction tr as [|te tr IH]; intros p Hp; simpl; [done|].
    by apply IH, step_debounced. }
  apply (H _ (init_debounced ms cs)).
Qed.

Lemma burst_run (rest : list (Z * event)) (p : page) (h : nat) :
  window_listeners p = true →
  pending p = [(h, now p + 120)] → resizeTimer p = Some h →
  Forall (λ te, settled_image te.2 = None) rest →
  burst (now p) (fst <$> rest) →
  let q := run rect_height p rest in
  runs q = runs p ∧
  ∃ h', pending q = [(h', default (now p) (last (fst <$> rest)) + 120)].
Proof.
  unfold run. revert p h.
  induction rest as [|[t e] rest IH]; intros p h Hw Hp Ht Hall Hb.
  - simpl. eauto.
  - apply Forall_cons in Hall as [He Hall]. destruct Hb as (Hlo & Hhi & Hb).
    simpl in He, Hlo, Hhi.
    set (p1 := step rect_height p (t, e)).
    assert (H1 : window_listeners p1 = true ∧ runs p1 = runs p ∧ now p1 = t ∧
                 pending p1 = [(next_id p, t + 120)] ∧
                 resizeTimer p1 = Some (next_id p)).
    { subst p1. unfold step, advance. cbn [fst snd]. rewrite Hp.
      rewrite !filter_cons, !filter_nil. cbn [snd].
      rewrite (decide_False (P := now p + 120 ≤ t)) by lia.
      rewrite (decide_True (P := ¬ now p + 120 ≤ t)) by lia.
      cbn [foldl].
      destruct e as [i|i| | |]; try done; simpl; rewrite Hw;
        unfold debouncedEqualize; simpl; rewrite Ht;
        rewrite filter_cons, filter_nil, decide_False
          by (simpl; intros H; by apply H);
        simpl; rewrite Z.max_r by lia; done. }
    destruct H1 as (Hw1 & Hr1 & Hn1 & Hp1 & Ht1).
    change (foldl (step rect_height) p ((t, e) :: rest))
      with (foldl (step rect_height) p1 rest).
    destruct (IH p1 (next_id p) Hw1) as (Hr & h' & Hq);
      [by rewrite Hn1 | done | done | by rewrite Hn1 |].
    rewrite Hr, Hr1. split; [done|]. exists h'. rewrite Hq, Hn1.
    rewrite fmap_cons. cbn [fst]. rewrite last_cons.
    by destruct (last (fst <$> rest)).
Qed.

(** X14.  Debounce: a burst of resize, orientation-change and window-load
    events, each less than 120 ms after the one before, causes no
    recomputation while it lasts and exactly one, 120 ms after its last
    event. *)
Theorem resize_burst_equalizes_once
    (p : page) (t1 : Z) (e1 : event) (rest : list (Z * event)) (T : Z) :
  window_listeners p = true → pending p = [] → now p ≤ t1 →
  Forall (λ te, settled_image te.2 = None) ((t1, e1) :: rest) →
  burst t1 (fst <$> rest) →
  let q := run rect_height p ((t1, e1) :: rest) in
  let tn := default t1 (last (fst <$> rest)) in
  runs q = runs p ∧
  (T < tn + 120 → runs (advance rect_height T q) = runs p) ∧
  (tn + 120 ≤ T →
     runs (advance rect_height T q) = S (runs p) ∧
     pending (advance rect_height T q) = []).
Proof.
  intros Hw Hp Hn Hall Hb q tn.
  apply Forall_cons in Hall as [He Hall]. simpl in He.
  set (p1 := step rect_height p (t1, e1)).
  assert (H1 : window_listeners p1 = true ∧ runs p1 = runs p ∧ now p1 = t1 ∧
               pending p1 = [(next_id p, t1 + 120)] ∧
               resizeTimer p1 = Some (next_id p)).
  { subst p1. unfold step, advance. cbn [fst snd]. rewrite Hp. simpl.
    destruct e1 as [i|i| | |]; try done; simpl; rewrite Hw;
      unfold debouncedEqualize; simpl;
      rewrite Z.max_r by lia; by destruct (resizeTimer p). }
  destruct H1 as (Hw1 & Hr1 & Hn1 & Hp1 & Ht1).
  destruct (burst_run rest p1 (next_id p) Hw1) as (Hr & h' & Hq);
    [by rewrite Hn1 | done | done | by rewrite Hn1 |].
  change (run rect_height p1 rest) with q in Hr, Hq.
  rewrite Hn1 in Hq. fold tn in Hq.
  split; [congruence|].
  split; intros HT; unfold advance; rewrite Hq, !filter_cons, !filter_nil; cbn [snd].
  - rewrite (decide_False (P := tn + 120 ≤ T)) by lia.
    rewrite (decide_True (P := ¬ tn + 120 ≤ T)) by lia. simpl. congruence.
  - rewrite (decide_True (P := tn + 120 ≤ T)) by lia.
    rewrite (decide_False (P := ¬ tn + 120 ≤ T)) by lia. cbn [foldl].
    match goal with |- context [call_equalizeAll _ ?p'] =>
      destruct (call_equalizeAll_fields p') as (Hr' & _ & _ & _ & _ & _ & _ & Hp') end.
    simpl in Hr', Hp'. rewrite Hr', Hp'. split; [congruence|done].
Qed.

End EqualizerPageFacts.

(** ** Lazy loader: which images are watched *)
Section LazyLoaderMore.
Import LazyLoader.

(** X15.  Under the browser's delivery contract, at every moment the
    observer watches exactly the images that still carry a deferred
    source: an image leaves the watch list in the same step that removes
    its data-src, and none is ever added later. *)
Theorem observed_iff_still_deferred
    (imgs : list img) (batches : list (list entry)) (i : nat) :
  well_delivered (init true imgs) batches →
  let s := run (init true imgs) batches in
  i ∈ observed s ↔ ∃ im u, images s !! i = Some im ∧ data_src im = Some u.
Proof.
  intros Hwd s. destruct (init_observes imgs) as [Himgs Hobs].
  destruct (decide (i ∈ observed (init true imgs))) as [Hin|Hout].
  - pose proof Hin as Hlazy. apply Hobs, lazyImages_elem in Hlazy as (im & u & Hi & Hu).
    destruct (run_observed batches (init true imgs) i im Hwd) as [Hyes Hno];
      [by rewrite Himgs | done |].
    destruct (decide (reported i batches)) as [Hr|Hr].
    + destruct (Hyes Hr) as [Hl Hn]. fold s in Hl, Hn. split; [done|].
      intros (im' & u' & Hi' & Hu'). rewrite Hl in Hi'. injection Hi' as <-.
      done.
    + destruct (Hno Hr) as [Hl Hn]. fold s in Hl, Hn. split; [eauto|done].
  - destruct (run_unobserved batches (init true imgs) i Hwd Hout) as [Hl Hn].
    fold s in Hl, Hn. split; [done|].
    intros (im & u & Hi & Hu). rewrite Hl, Himgs in Hi.
    exfalso. apply Hout, Hobs, lazyImages_elem. eauto.
Qed.

(** X16.  Under the same contract, an image without a deferred source is
    never touched by the observer path, whatever is delivered. *)
Theorem plain_images_untouched
    (imgs : list img) (batches : list (list entry)) (i : nat) (im : img) :
  well_delivered (init true imgs) batches →
  imgs !! i = Some im → data_src im = None →
  images (run (init true imgs) batches) !! i = Some im.
Proof.
  intros Hwd Hi Hn. destruct (init_observes imgs) as [Himgs Hobs].
  assert (Hout : i ∉ observed (init true imgs)).
  { intros Hin. apply Hobs, lazyImages_elem in Hin as (im' & u & Hi' & Hu).
    congruence. }
  destruct (run_unobserved batches (init true imgs) i Hwd Hout) as [-> _].
  by rewrite Himgs.
Qed.

End LazyLoaderMore.

(** ** Theme toggle: what every run keeps *)
Section ThemeMore.
Import JS Storage.

(** *** [script.js] *)

Lemma script_handle_valid (e : ScriptTheme.event) (p : ScriptTheme.page) :
  (∃ d, ScriptTheme.displays (theme_name d) p) →
  ∃ d, ScriptTheme.displays (theme_name d) (after (ScriptTheme.handle e p)).
Proof.
  intros [d Hd]. destruct e as [|b|]; cbn [ScriptTheme.handle after].
  - pose proof (script_click_displays p) as H.
    destruct (decide _); [by exists false | by exists true].
  - by exists d.
  - exists d. destruct (ScriptTheme.pulse_pending p); done.
Qed.

(** X17.  In [script.js] the root attribute is always exactly "light" or
    "dark" and the pressed state always agrees with it, from
    initialization on and through any clicks, system changes and pulse
    timeouts, whatever the page or the store held before. *)
Theorem script_theme_always_valid (p : ScriptTheme.page) (evs : list ScriptTheme.event) :
  ∃ d, ScriptTheme.displays (theme_name d) (ScriptTheme.run (ScriptTheme.init p) evs).
Proof.
  unfold ScriptTheme.run.
  generalize (script_init_valid p). generalize (ScriptTheme.init p).
  induction evs as [|e evs IH]; intros q Hq; simpl; [done|].
  by apply IH, script_handle_valid.
Qed.

Lemma script_handle_store (e : ScriptTheme.event) (p : ScriptTheme.page) :
  let st := ScriptTheme.localStorage p in
  let st' := ScriptTheme.localStorage (after (ScriptTheme.handle e p)) in
  st' = st ∨
  (∃ m d, st = Store m false ∧
          st' = Store (<[ScriptTheme.STORAGE_KEY := theme_name d]> m) false).
Proof.
  destruct e as [|b|]; cbn [ScriptTheme.handle after].
  - rewrite script_click_store.
    destruct (ScriptTheme.localStorage p) as [|m [|]]; simpl; [by left | by left |].
    right. destruct (decide _); [by exists m, false | by exists m, true].
  - by left.
  - left. by destruct (ScriptTheme.pulse_pending p).
Qed.

(** X18.  [script.js] writes to the store with care: through any run of
    its listeners every other key keeps its value, the theme key is never
    removed, and whatever new value appears under it is "light" or
    "dark". *)
Theorem script_store_hygiene
    (p : ScriptTheme.page) (evs : list ScriptTheme.event) (k : string) :
  let st := ScriptTheme.localStorage p in
  let st' := ScriptTheme.localStorage (ScriptTheme.run p evs) in
  (k ≠ ScriptTheme.STORAGE_KEY → persisted k st' = persisted k st) ∧
  (is_Some (persisted ScriptTheme.STORAGE_KEY st) →
   is_Some (persisted ScriptTheme.STORAGE_KEY st')) ∧
  (∀ v, persisted ScriptTheme.STORAGE_KEY st' = Some v →
        persisted ScriptTheme.STORAGE_KEY st = Some v ∨ v = "light" ∨ v = "dark").
Proof.
  unfold ScriptTheme.run. revert p.
  induction evs as [|e evs IH]; intros p; simpl.
  - split_and!; auto.
  - destruct (IH (after (ScriptTheme.handle e p))) as (Hk & Hs & Hv).
    destruct (script_handle_store e p) as [Heq | (m & d & Hst & Hst')].
    + rewrite Heq in Hk, Hs, Hv. done.
    + rewrite Hst' in Hk, Hs, Hv. rewrite Hst. simpl in *. split_and!.
      * intros Hne. rewrite (Hk Hne). by rewrite lookup_insert_ne.
      * intros _. apply Hs. rewrite lookup_insert_eq. eauto.
      * intros v Hv'. destruct (Hv v Hv') as [H|H]; [|by right].
        rewrite lookup_insert_eq in H. injection H as <-. right.
        apply theme_name_cases.
Qed.

Lemma script_click_synced (p : ScriptTheme.page) (m : gmap string string) :
  ScriptTheme.localStorage p = Store m false →
  ∃ d, ScriptTheme.localStorage (after (ScriptTheme.click p))
         = Store (<[ScriptTheme.STORAGE_KEY := theme_name d]> m) false ∧
       ScriptTheme.displays (theme_name d) (after (ScriptTheme.click p)).
Proof.
  intros Hst.
  pose proof (script_click_displays p) as Hc.
  pose proof (script_click_store p) as Hs. rewrite Hst in Hs.
  destruct (decide (ScriptTheme.data_theme p = Some "dark")).
  - exists false. split; [exact Hs | exact Hc].
  - exists true. split; [exact Hs | exact Hc].
Qed.

Lemma script_handle_synced (e : ScriptTheme.event) (p : ScriptTheme.page)
    (m : gmap string string) (d : bool) :
  ScriptTheme.localStorage p = Store m false →
  m !! ScriptTheme.STORAGE_KEY = Some (theme_name d) →
  ScriptTheme.displays (theme_name d) p →
  ∃ m' d', ScriptTheme.localStorage (after (ScriptTheme.handle e p)) = Store m' false ∧
           m' !! ScriptTheme.STORAGE_KEY = Some (theme_name d') ∧
           ScriptTheme.displays (theme_name d') (after (ScriptTheme.handle e p)).
Proof.
  intros Hst Hk Hd. destruct e as [|b|]; cbn [ScriptTheme.handle after].
  - destruct (script_click_synced p m Hst) as (d' & Hs & Hc).
    eexists _, d'. split; [exact Hs|]. split; [apply lookup_insert_eq | exact Hc].
  - by exists m, d.
  - exists m, d. by destruct (ScriptTheme.pulse_pending p).
Qed.

Lemma script_run_synced (evs : list ScriptTheme.event) (p : ScriptTheme.page) :
  (∃ m d, ScriptTheme.localStorage p = Store m false ∧
          m !! ScriptTheme.STORAGE_KEY = Some (theme_name d) ∧
          ScriptTheme.displays (theme_name d) p) →
  ∃ m d, ScriptTheme.localStorage (ScriptTheme.run p evs) = Store m false ∧
         m !! ScriptTheme.STORAGE_KEY = Some (theme_name d) ∧
         ScriptTheme.displays (theme_name d) (ScriptTheme.run p evs).
Proof.
  unfold ScriptTheme.run. revert p.
  induction evs as [|e evs IH]; intros p (m & d & H1 & H2 & H3); simpl; [eauto|].
  apply IH. by apply (script_handle_synced e p m d).
Qed.

(** X19.  Persistence round trip in [script.js], with a store that accepts
    writes: once the control has been clicked, whatever follows, the theme
    showing at any later moment is the one a new visit, initializing from
    that store, shows. *)
Theorem script_next_visit_shows_same_theme
    (p : ScriptTheme.page) (m : gmap string string)
    (evs : list ScriptTheme.event) (fresh : ScriptTheme.page) :
  ScriptTheme.localStorage p = Store m false →
  let q := ScriptTheme.run (after (ScriptTheme.click p)) evs in
  ScriptTheme.localStorage fresh = ScriptTheme.localStorage q →
  ScriptTheme.data_theme (ScriptTheme.init fresh) = ScriptTheme.data_theme q ∧
  ScriptTheme.aria_pressed (ScriptTheme.init fresh) = ScriptTheme.aria_pressed q.
Proof.
  intros Hst q Hfresh.
  assert (Hq : ∃ m' d', ScriptTheme.localStorage q = Store m' false ∧
                        m' !! ScriptTheme.STORAGE_KEY = Some (theme_name d') ∧
                        ScriptTheme.displays (theme_name d') q).
  { apply script_run_synced.
    destruct (script_click_synced p m Hst) as (d' & Hs & Hc).
    eexists _, d'. split; [exact Hs|]. split; [apply lookup_insert_eq | exact Hc]. }
  destruct Hq as (m' & d' & Hs' & Hk' & [Hd' Ha']).
  unfold ScriptTheme.init, ScriptTheme.initial_theme. rewrite Hfresh, Hs'. simpl.
  rewrite Hk'. rewrite Hd', Ha'. by destruct d'.
Qed.

(** X20.  The transition pulse is suppressed for good when the browser
    reports reduced motion, and also when the control has no track: no
    run of the listeners ever schedules a pulse or changes the track. *)
Theorem script_pulse_suppressed (p : ScriptTheme.page) (evs : list ScriptTheme.event) :
  ScriptTheme.reduced_motion p = true ∨ ScriptTheme.track p = None →
  ScriptTheme.pulse_pending p = false →
  ScriptTheme.track (ScriptTheme.run p evs) = ScriptTheme.track p ∧
  ScriptTheme.pulse_pending (ScriptTheme.run p evs) = false.
Proof.
  unfold ScriptTheme.run. revert p.
  induction evs as [|e evs IH]; intros p Hsup Hpend; simpl; [done|].
  assert (Hstep : ScriptTheme.track (after (ScriptTheme.handle e p)) = ScriptTheme.track p ∧
                  ScriptTheme.pulse_pending (after (ScriptTheme.handle e p)) = false ∧
                  ScriptTheme.reduced_motion (after (ScriptTheme.handle e p))
                    = ScriptTheme.reduced_motion p).
  { destruct e as [|b|]; simpl.
    - unfold ScriptTheme.pulseTrack, ScriptTheme.applyTheme. simpl.
      destruct Hsup as [Hr | Ht].
      + rewrite Hr. by destruct (ScriptTheme.track p).
      + by rewrite Ht.
    - done.
    - by rewrite Hpend. }
  destruct Hstep as (Ht & Hp & Hr).
  destruct (IH (after (ScriptTheme.handle e p))) as [-> ->]; [|done|done].
  by rewrite Ht, Hr.
Qed.

(** *** [part_000] *)

Lemma part_handle_valid (e : PartTheme.event) (p : PartTheme.page) :
  (∃ d, PartTheme.displays (theme_name d) p) →
  ∃ d, PartTheme.displays (theme_name d) (after (PartTheme.handle e p)).
Proof.
  intros [d Hd]. destruct e as [|b|t]; cbn [PartTheme.handle].
  - pose proof (part_click_displays p) as H.
    destruct (decide _); [by exists false | by exists true].
  - destruct (PartTheme.mql_listens p); [|by exists d].
    unfold PartTheme.change. simpl.
    destruct (getItem _ _) as [[v|]|]; simpl; [by exists d | by exists b | by exists d].
  - unfold PartTheme.touchend.
    destruct (decide _); [|by exists d].
    destruct (removeItem _ _); [|by exists d].
    simpl. by exists (PartTheme.system_dark p).
Qed.

(** X21.  In [part_000] a page that shows "light" or "dark" keeps showing
    one of the two, with body class, pressed state and control class in
    step with the root attribute, through any clicks, system changes and
    touch ends, also when listeners throw on the store. *)
Theorem part_theme_stays_valid
    (p : PartTheme.page) (d : bool) (evs : list PartTheme.event) :
  PartTheme.displays (theme_name d) p →
  ∃ d', PartTheme.displays (theme_name d') (PartTheme.run p evs).
Proof.
  intros Hd. assert (H : ∃ d, PartTheme.displays (theme_name d) p) by eauto.
  clear Hd. unfold PartTheme.run. revert p H.
  induction evs as [|e evs IH]; intros p H; simpl; [done|].
  by apply IH, part_handle_valid.
Qed.

Lemma part_handle_store (e : PartTheme.event) (p : PartTheme.page) :
  let st := PartTheme.localStorage p in
  let st' := PartTheme.localStorage (after (PartTheme.handle e p)) in
  st' = st ∨
  (∃ m d, st = Store m false ∧
          st' = Store (<[PartTheme.STORAGE_KEY := theme_name d]> m) false) ∨
  (∃ m f, st = Store m f ∧ st' = Store (delete PartTheme.STORAGE_KEY m) f).
Proof.
  destruct e as [|b|t]; cbn [PartTheme.handle].
  - unfold PartTheme.click, PartTheme.applyTheme. simpl.
    destruct (PartTheme.localStorage p) as [|m [|]]; simpl; [by left | by left |].
    right. left. destruct (decide _); [by exists m, false | by exists m, true].
  - left. destruct (PartTheme.mql_listens p); [|done].
    unfold PartTheme.change. simpl.
    by destruct (getItem _ _) as [[v|]|].
  - unfold PartTheme.touchend.
    destruct (decide _); [|by left].
    destruct (PartTheme.localStorage p) as [|m f] eqn:Hst; simpl;
      [left; by rewrite Hst|].
    right. right. by exists m, f.
Qed.

(** X22.  [part_000] touches only its own key: through any run of its
    listeners every other key keeps its value, and whatever new value
    appears under "site:theme" is "light" or "dark". *)
Theorem part_store_hygiene
    (p : PartTheme.page) (evs : list PartTheme.event) (k : string) :
  let st := PartTheme.localStorage p in
  let st' := PartTheme.localStorage (PartTheme.run p evs) in
  (k ≠ PartTheme.STORAGE_KEY → persisted k st' = persisted k st) ∧
  (∀ v, persisted PartTheme.STORAGE_KEY st' = Some v →
        persisted PartTheme.STORAGE_KEY st = Some v ∨ v = "light" ∨ v = "dark").
Proof.
  unfold PartTheme.run. revert p.
  induction evs as [|e evs IH]; intros p; simpl.
  - split; auto.
  - destruct (IH (after (PartTheme.handle e p))) as (Hk & Hv).
    destruct (part_handle_store e p)
      as [Heq | [(m & d & Hst & Hst') | (m & f & Hst & Hst')]].
    + rewrite Heq in Hk, Hv. done.
    + rewrite Hst' in Hk, Hv. rewrite Hst. simpl in *. split.
      * intros Hne. rewrite (Hk Hne). by rewrite lookup_insert_ne.
      * intros v Hv'. destruct (Hv v Hv') as [H|H]; [|by right].
        rewrite lookup_insert_eq in H. injection H as <-. right.
        apply theme_name_cases.
    + rewrite Hst' in Hk, Hv. rewrite Hst. simpl in *. split.
      * intros Hne. rewrite (Hk Hne). by rewrite lookup_delete_ne.
      * intros v Hv'. destruct (Hv v Hv') as [H|H]; [|by right].
        by rewrite lookup_delete_eq in H.
Qed.

Lemma part_handle_in_step (e : PartTheme.event) (p : PartTheme.page) :
  PartTheme.in_step p → PartTheme.in_step (after (PartTheme.handle e p)).
Proof.
  intros (m & Hst & Hl & Hcase). unfold PartTheme.in_step.
  destruct e as [|b|t]; cbn [PartTheme.handle].
  - pose proof (part_click_displays p) as Hd.
    assert (Hs : ∃ d, PartTheme.localStorage (after (PartTheme.click p))
                        = Store (<[PartTheme.STORAGE_KEY := theme_name d]> m) false ∧
                      PartTheme.mql_listens (after (PartTheme.click p)) = true ∧
                      PartTheme.displays (theme_name d) (after (PartTheme.click p))).
    { revert Hd. unfold PartTheme.click, PartTheme.applyTheme. simpl.
      rewrite Hst. simpl.
      destruct (decide _); intros Hd; [by exists false | by exists true]. }
    destruct Hs as (d & Hs & Hl' & Hd').
    eexists. split; [exact Hs|]. split; [done|]. left. exists d.
    split; [apply lookup_insert_eq | done].
  - rewrite Hl. unfold PartTheme.change. simpl. rewrite Hst. simpl.
    destruct Hcase as [(d & Hk & Hd) | (Hk & Hd)]; rewrite Hk; simpl.
    + exists m. split_and!; try done. left. eauto.
    + exists m. split_and!; try done. right. done.
  - unfold PartTheme.touchend. destruct (decide _).
    + rewrite Hst. simpl. eexists. split; [reflexivity|]. split; [done|].
      right. split; [apply lookup_delete_eq | done].
    + simpl. exists m. split_and!; try done.
Qed.

Lemma part_run_in_step (evs : list PartTheme.event) (p : PartTheme.page) :
  PartTheme.in_step p → PartTheme.in_step (PartTheme.run p evs).
Proof.
  unfold PartTheme.run. revert p.
  induction evs as [|e evs IH]; intros p Hp; simpl; [done|].
  by apply IH, part_handle_in_step.
Qed.

Lemma part_init_in_step (p : PartTheme.page) (m : gmap string string) :
  PartTheme.localStorage p = Store m false →
  PartTheme.mql_listens p = true →
  (∀ v, m !! PartTheme.STORAGE_KEY = Some v → v = "light" ∨ v = "dark") →
  ∃ q, PartTheme.init p = Done q ∧ PartTheme.in_step q.
Proof.
  intros Hst Hl Hvalid. unfold PartTheme.init, PartTheme.getInitialTheme.
  rewrite Hst. simpl.
  destruct (m !! PartTheme.STORAGE_KEY) as [v|] eqn:Hk.
  - rewrite decide_True by auto.
    eexists. split; [reflexivity|]. exists m. simpl. split_and!; try done.
    left. destruct (Hvalid v eq_refl) as [-> | ->];
      [by exists false | by exists true].
  - eexists. split; [reflexivity|]. exists m. simpl. split_and!; try done.
    right. done.
Qed.

(** X23.  In [part_000], with a store that accepts writes, change events
    heard, and the stored value (if any) a proper one, page and store
    stay in step from initialization on: at every moment the page shows
    the stored preference or, when none is stored, the theme of the
    current system preference. *)
Theorem part_page_in_step_with_store
    (p : PartTheme.page) (m : gmap string string) (evs : list PartTheme.event) :
  PartTheme.localStorage p = Store m false →
  PartTheme.mql_listens p = true →
  (∀ v, m !! PartTheme.STORAGE_KEY = Some v → v = "light" ∨ v = "dark") →
  let q := PartTheme.run (after (PartTheme.init p)) evs in
  match persisted PartTheme.STORAGE_KEY (PartTheme.localStorage q) with
  | Some v => PartTheme.displays v q
  | None => PartTheme.displays (theme_name (PartTheme.system_dark q)) q
  end.
Proof.
  intros Hst Hl Hvalid q.
  destruct (part_init_in_step p m Hst Hl Hvalid) as (q0 & Hinit & H0).
  subst q. rewrite Hinit. simpl.
  destruct (part_run_in_step evs q0 H0) as (m' & Hs' & _ & Hcase).
  rewrite Hs'. simpl.
  destruct Hcase as [(d & -> & Hd) | (-> & Hd)]; done.
Qed.

(** X24.  Persistence round trip in [part_000], under the same
    conditions: a new visit that initializes from the store as it was
    left, with the system preference unchanged, shows the theme that was
    showing. *)
Theorem part_next_visit_shows_same_theme
    (p : PartTheme.page) (m : gmap string string)
    (evs : list PartTheme.event) (fresh : PartTheme.page) :
  PartTheme.localStorage p = Store m false →
  PartTheme.mql_listens p = true →
  (∀ v, m !! PartTheme.STORAGE_KEY = Some v → v = "light" ∨ v = "dark") →
  let q := PartTheme.run (after (PartTheme.init p)) evs in
  PartTheme.localStorage fresh = PartTheme.localStorage q →
  PartTheme.system_dark fresh = PartTheme.system_dark q →
  ∃ q', PartTheme.init fresh = Done q' ∧
        PartTheme.data_theme q' = PartTheme.data_theme q.
Proof.
  intros Hst Hl Hvalid q Hfs Hfd.
  destruct (part_init_in_step p m Hst Hl Hvalid) as (q0 & Hinit & H0).
  assert (Hq : PartTheme.in_step q).
  { subst q. rewrite Hinit. by apply part_run_in_step. }
  destruct Hq as (m' & Hs' & _ & Hcase).
  unfold PartTheme.init, PartTheme.getInitialTheme. rewrite Hfs, Hs'. simpl.
  destruct Hcase as [(d & Hk & Hd & _) | (Hk & Hd & _)]; rewrite Hk.
  - rewrite decide_True by (destruct d; auto).
    eexists. split; [reflexivity|]. simpl. by rewrite Hd.
  - eexists. split; [reflexivity|]. simpl. by rewrite Hd, Hfd.
Qed.

(** X25.  A stored value that is neither "light" nor "dark" is read two
    ways in [part_000]: initialization treats it as absent and shows the
    system theme, but the change listener sees a stored value and ignores
    every later change of the system preference. *)
Theorem part_unrecognized_value_blocks_follow
    (p : PartTheme.page) (m : gmap string string) (f : bool) (v : string) (d : bool) :
  PartTheme.localStorage p = Store m f →
  m !! PartTheme.STORAGE_KEY = Some v →
  v ≠ "light" → v ≠ "dark" →
  (∃ q, PartTheme.init p = Done q ∧
        PartTheme.displays (theme_name (PartTheme.system_dark p)) q ∧
        PartTheme.localStorage q = Store m f) ∧
  PartTheme.handle (PartTheme.SystemChange d) p = Done (PartTheme.set_system_dark d p).
Proof.
  intros Hst Hk Hl Hd. split.
  - unfold PartTheme.init, PartTheme.getInitialTheme. rewrite Hst. simpl. rewrite Hk.
    rewrite decide_False by tauto.
    eexists. split; [reflexivity|]. simpl. done.
  - simpl. unfold PartTheme.change. simpl. rewrite Hst. simpl. rewrite Hk.
    by destruct (PartTheme.mql_listens p).
Qed.


(** X27.  Taps at least 350 ms apart never count as a double tap: a run of
    such touch ends changes nothing but the remembered tap time, so theme
    and store stay as they were. *)
Theorem part_spaced_taps_change_nothing (p : PartTheme.page) (ts : list Z) :
  PartTheme.spaced (PartTheme.lastTap p) ts →
  PartTheme.run p (PartTheme.TouchEnd <$> ts)
    = PartTheme.set_lastTap (default (PartTheme.lastTap p) (last ts)) p.
Proof.
  unfold PartTheme.run. revert p.
  induction ts as [|t ts IH]; intros p Hsp.
  - simpl. by destruct p.
  - destruct Hsp as [Ht Hsp]. rewrite fmap_cons. cbn [foldl].
    change (PartTheme.handle (PartTheme.TouchEnd t) p) with (PartTheme.touchend t p).
    unfold PartTheme.touchend. rewrite decide_False by lia. cbn [after].
    rewrite IH by done. rewrite last_cons. simpl.
    by destruct (last ts).
Qed.

End ThemeMore.

(** ** The further properties at concrete pages *)

Lemma hover_alone_keeps_one_active_witness :
  (size (Spotlight.active
           (Spotlight.run [1; 2]%nat None Spotlight.initial sample_hover_trace)) ≤ 1)%nat.
Proof.
  apply (hover_alone_keeps_one_active [1; 2]%nat None sample_hover_trace).
  repeat constructor.
Defined.


Lemma equalizeModule_one_positive_height_witness : 1%nat = 1%nat ∧ 0 < 300.
Proof.
  refine (equalizeModule_one_positive_height sample_layout (sample_module "300px 300px")
            1 1 (Equalizer.Col false true (Equalizer.Px 300))
            (Equalizer.Col false true (Equalizer.Px 300)) 300 300 _ eq_refl _ eq_refl);
    vm_compute; reflexivity.
Defined.

Lemma equalizeModule_missing_column_witness :
  Equalizer.equalizeModule sample_layout sample_broken_module
  = JS.Thrown (Equalizer.clearHeights sample_broken_module).
Proof.
  refine (proj1 (equalizeModule_missing_column sample_layout sample_broken_module _) eq_refl).
  vm_compute. lia.
Defined.

Lemma equalizeAll_stops_at_first_throw_witness :
  Equalizer.equalizeAll sample_layout
    ([sample_module "600px"] ++ sample_broken_module :: [sample_module "300px 300px"])
  = JS.Thrown ([Equalizer.clearHeights (sample_module "600px")]
               ++ Equalizer.clearHeights sample_broken_module
               :: [sample_module "300px 300px"]).
Proof.
  apply equalizeAll_stops_at_first_throw.
  - constructor; [|constructor]. vm_compute. reflexivity.
  - vm_compute. reflexivity.
Defined.

Lemma complete_images_equalize_at_once_witness :
  EqualizerPage.runs
    (JS.after (EqualizerPage.init sample_layout [sample_module "600px"] [true; true]))
  = 1%nat.
Proof.
  refine (proj1 (complete_images_equalize_at_once sample_layout
                   [sample_module "600px"] [true; true] _)).
  repeat constructor.
Defined.

Lemma last_settling_image_equalizes_witness :
  EqualizerPage.runs
    (EqualizerPage.run sample_layout
       (JS.after (EqualizerPage.init sample_layout [] [false; true; false]))
       [(10, EqualizerPage.ImgLoad 0); (20, EqualizerPage.ImgError 2)])
  = 1%nat.
Proof.
  refine (proj2 (last_settling_image_equalizes sample_layout [] [false; true; false]
                   [(10, EqualizerPage.ImgLoad 0); (20, EqualizerPage.ImgError 2)] _ _)
            _ eq_refl).
  - compute_done.
  - repeat constructor; eexists; split; reflexivity.
  - done.
Defined.

Lemma load_then_error_counts_twice_witness :
  EqualizerPage.runs
    (JS.after (EqualizerPage.handle sample_layout (EqualizerPage.ImgError 0)
       (JS.after (EqualizerPage.handle sample_layout (EqualizerPage.ImgLoad 0)
          (JS.after (EqualizerPage.init sample_layout [] [false; false]))))))
  = 1%nat.
Proof.
  exact (proj2 (load_then_error_counts_twice sample_layout
                  (JS.after (EqualizerPage.init sample_layout [] [false; false]))
                  0 false eq_refl) eq_refl).
Defined.

Lemma resize_burst_equalizes_once_witness :
  EqualizerPage.runs
    (EqualizerPage.advance sample_layout 220
       (EqualizerPage.run sample_layout
          (JS.after (EqualizerPage.init sample_layout [] []))
          ((10, EqualizerPage.Resize) :: sample_resizes)))
  = 2%nat.
Proof.
  refine (proj1 (proj2 (proj2 (resize_burst_equalizes_once sample_layout
            (JS.after (EqualizerPage.init sample_layout [] []))
            10 EqualizerPage.Resize sample_resizes 220 eq_refl eq_refl _ _ _)) _)).
  - simpl. lia.
  - repeat constructor.
  - simpl. lia.
  - simpl. lia.
Defined.

Lemma observed_iff_still_deferred_witness :
  0%nat ∈ LazyLoader.observed
            (LazyLoader.run (LazyLoader.init true sample_images) [[LazyLoader.Entry 1 true]])
  ↔ ∃ im u,
      LazyLoader.images
        (LazyLoader.run (LazyLoader.init true sample_images) [[LazyLoader.Entry 1 true]])
        !! 0%nat = Some im ∧ LazyLoader.data_src im = Some u.
Proof.
  apply (observed_iff_still_deferred sample_images [[LazyLoader.Entry 1 true]] 0).
  simpl. unfold LazyLoader.delivers. split_and!; try done; compute_done.
Defined.

Lemma plain_images_untouched_witness :
  LazyLoader.images
    (LazyLoader.run (LazyLoader.init true sample_images) sample_batches) !! 2%nat
  = Some (LazyLoader.Img (Some "c.jpg") None 0).
Proof.
  refine (plain_images_untouched sample_images sample_batches 2 _ _ eq_refl eq_refl).
  simpl. unfold LazyLoader.delivers. split_and!; try done; compute_done.
Defined.

Lemma script_next_visit_shows_same_theme_witness :
  ScriptTheme.data_theme
    (ScriptTheme.init
       (sample_script_page
          (ScriptTheme.localStorage
             (ScriptTheme.run
                (JS.after (ScriptTheme.click (sample_script_page (Storage.Store ∅ false) "light")))
                [ScriptTheme.SystemChange true; ScriptTheme.Click]))
          "dark"))
  = ScriptTheme.data_theme
      (ScriptTheme.run
         (JS.after (ScriptTheme.click (sample_script_page (Storage.Store ∅ false) "light")))
         [ScriptTheme.SystemChange true; ScriptTheme.Click]).
Proof.
  exact (proj1 (script_next_visit_shows_same_theme
                  (sample_script_page (Storage.Store ∅ false) "light") ∅
                  [ScriptTheme.SystemChange true; ScriptTheme.Click]
                  _ eq_refl eq_refl)).
Defined.

Lemma script_pulse_suppressed_witness :
  ScriptTheme.track
    (ScriptTheme.run sample_reduced_page
       [ScriptTheme.Click; ScriptTheme.Click; ScriptTheme.PulseTimeout])
  = Some false.
Proof.
  exact (proj1 (script_pulse_suppressed sample_reduced_page
                  [ScriptTheme.Click; ScriptTheme.Click; ScriptTheme.PulseTimeout]
                  (or_introl eq_refl) eq_refl)).
Defined.

Lemma part_theme_stays_valid_witness :
  ∃ d, PartTheme.displays (theme_name d)
         (PartTheme.run (sample_part_page Storage.Unavailable "light")
            [PartTheme.Click; PartTheme.SystemChange false; PartTheme.TouchEnd 100]).
Proof.
  apply (part_theme_stays_valid (sample_part_page Storage.Unavailable "light") false).
  by split_and!.
Defined.

Lemma part_page_in_step_with_store_witness :
  let q := PartTheme.run
             (JS.after (PartTheme.init (sample_part_page (Storage.Store ∅ false) "light")))
             [PartTheme.Click; PartTheme.SystemChange false; PartTheme.Click] in
  match Storage.persisted PartTheme.STORAGE_KEY (PartTheme.localStorage q) with
  | Some v => PartTheme.displays v q
  | None => PartTheme.displays (theme_name (PartTheme.system_dark q)) q
  end.
Proof.
  refine (part_page_in_step_with_store (sample_part_page (Storage.Store ∅ false) "light") ∅
            [PartTheme.Click; PartTheme.SystemChange false; PartTheme.Click]
            eq_refl eq_refl _).
  intros v Hv. by rewrite lookup_empty in Hv.
Defined.

Lemma part_next_visit_shows_same_theme_witness :
  ∃ q', PartTheme.init
          (sample_part_page
             (PartTheme.localStorage
                (PartTheme.run
                   (JS.after (PartTheme.init (sample_part_page (Storage.Store ∅ false) "light")))
                   [PartTheme.Click]))
             "dark")
        = JS.Done q' ∧
        PartTheme.data_theme q'
        = PartTheme.data_theme
            (PartTheme.run
               (JS.after (PartTheme.init (sample_part_page (Storage.Store ∅ false) "light")))
               [PartTheme.Click]).
Proof.
  refine (part_next_visit_shows_same_theme
            (sample_part_page (Storage.Store ∅ false) "light") ∅ [PartTheme.Click]
            _ eq_refl eq_refl _ eq_refl eq_refl).
  intros v Hv. by rewrite lookup_empty in Hv.
Defined.

Lemma part_unrecognized_value_blocks_follow_witness :
  PartTheme.handle (PartTheme.SystemChange false)
    (sample_part_page (Storage.Store {[ "site:theme" := "blue" ]} false) "dark")
  = JS.Done (PartTheme.set_system_dark false
               (sample_part_page (Storage.Store {[ "site:theme" := "blue" ]} false) "dark")).
Proof.
  refine (proj2 (part_unrecognized_value_blocks_follow
                   (sample_part_page (Storage.Store {[ "site:theme" := "blue" ]} false) "dark")
                   {[ "site:theme" := "blue" ]} false "blue" false eq_refl eq_refl _ _));
    done.
Defined.


Lemma part_spaced_taps_change_nothing_witness :
  PartTheme.run (sample_part_page (Storage.Store ∅ false) "light")
    (PartTheme.TouchEnd <$> [1000; 2000])
  = PartTheme.set_lastTap 2000 (sample_part_page (Storage.Store ∅ false) "light").
Proof.
  apply (part_spaced_taps_change_nothing
           (sample_part_page (Storage.Store ∅ false) "light") [1000; 2000]).
  simpl. lia.
Defined.
